(** * Plannify: reminders scheduled in the service worker

    A shallow embedding of the notification code of the repository:

    - [ServiceWorker]: the scheduler of [public/sw.js]
      ([scheduleNotification], [cancelScheduledNotification],
      [showNotification] and the message listener);
    - [TimeParser]: [parseTimeToDate] of [lib/background-notifications.ts]
      and of its trimmed sibling file, over a model of the [Date] calls it
      makes;
    - [Manager]: [BackgroundNotificationManager] of the same two files
      ([initialize], [requestPermission], [scheduleNotification]);
    - [NotificationClick] and [Caching]: the click, install, activate and
      fetch listeners of [public/sw.js].

    The modules of definitions come first; the modules of facts
    ([SchedulerFacts], [DateFacts], [ParserFacts], [ManagerFacts],
    [RequestFacts], then [SchedulerMore], [ClickFacts], [CachingFacts],
    [ParserMore], [ManagerMore], [ReminderFacts]) follow them. *)

From Stdlib Require Import ZArith String Ascii List Lia Bool.
From stdpp Require Import gmap strings list fin_maps.

Local Open Scope Z_scope.

(** ** JavaScript values, as far as the notifier looks at them *)

Inductive JsValue :=
| JsUndefined
| JsNull
| JsBoolean (b : bool)
| JsNaN
| JsNumber (n : Z)
| JsString (s : string).

(** [ToBoolean]: the falsy values are [undefined], [null], [false], [NaN],
    zero and the empty string. *)
Definition truthy (v : JsValue) : bool :=
  match v with
  | JsUndefined | JsNull | JsNaN => false
  | JsBoolean b => b
  | JsNumber n => negb (n =? 0)
  | JsString s => negb (String.eqb s "")
  end.

(** [a || b] *)
Definition js_or (a b : JsValue) : JsValue := if truthy a then a else b.

(** A number that may be [NaN]: [None] is [NaN].  Every comparison with
    [NaN] is false. *)
Definition num_le (a : option Z) (b : Z) : bool :=
  match a with Some x => x <=? b | None => false end.

Definition num_gt (a : option Z) (b : Z) : bool :=
  match a with Some x => b <? x | None => false end.

(** The [console] method a line is written with. *)
Inductive LogLevel := LevelLog | LevelWarn | LevelError.

(** ** The service worker: [public/sw.js] *)

Module ServiceWorker.

(** What [console] receives from the notification code. *)
Inductive LogLine :=
| LogMessageReceived
| LogScheduling (title : string)          (* Scheduling notification "title" *)
| LogScheduledFor                         (* Scheduled for: <locale string> *)
| LogWillTriggerIn (delay : option Z)     (* Will trigger in: round(delay/1000) seconds *)
| LogTimePassed                           (* Time has passed, sending immediately *)
| LogDelayTooLong                         (* Delay too long, capping at max timeout *)
| LogTriggering (title : string)          (* Triggering scheduled notification: title *)
| LogTotalScheduled (n : nat)             (* Total scheduled: n notifications *)
| LogCancelled (id : string)              (* Cancelled notification: id *)
| LogShowing (title : string).            (* Showing notification: title *)

(** The [options] object of [showNotification].  The fields that do not
    depend on the arguments (icon, badge, vibrate, requireInteraction,
    silent, actions, and data, which holds the time of the call and the
    url) are left out. *)
Record NotificationOptions := {
  opt_body : string;
  opt_tag : JsValue
}.

Inductive Effect :=
| Console (level : LogLevel) (line : LogLine)
| ShowNotification (title : string) (options : NotificationOptions)
| PostReply (scheduled : gset string)     (* event.ports[0].postMessage *)
| UncaughtTypeError                       (* event.ports[0] is undefined *)
| SkipWaiting.

(** A value of the map [scheduledNotifications].  [scheduledTime] is the
    message field as received; the model keeps what
    [new Date(scheduledTime).getTime()] makes of it, [None] for [NaN]. *)
Record Scheduled := {
  timeoutId : nat;
  title : string;
  body : string;
  scheduledTime : option Z
}.

(** An armed timeout of the worker: the closure passed to [setTimeout]
    captures [title], [body] and [id]. *)
Record Timer := {
  cb_title : string;
  cb_body : string;
  cb_id : string;
  timer_delay : Z
}.

Record State := {
  scheduledNotifications : gmap string Scheduled;
  timers : gmap nat Timer;
  nextTimeoutId : nat;
  trace : list Effect
}.

Definition initial : State :=
  {| scheduledNotifications := ∅; timers := ∅; nextTimeoutId := 1; trace := [] |}.

Definition emit (e : Effect) (s : State) : State :=
  {| scheduledNotifications := scheduledNotifications s;
     timers := timers s;
     nextTimeoutId := nextTimeoutId s;
     trace := trace s ++ [e] |}.

(** The largest delay [setTimeout] represents: 2^31 - 1 ms. *)
Definition MAX_TIMEOUT : Z := 2147483647.

Definition DEFAULT_TAG : string := "activity-reminder".

(** [function showNotification(title, body, tag)].  The promise of
    [registration.showNotification] only logs its outcome. *)
Definition showNotification (title body : string) (tag : JsValue) (s : State) : State :=
  emit (ShowNotification title
          {| opt_body := body; opt_tag := js_or tag (JsString DEFAULT_TAG) |})
       (emit (Console LevelLog (LogShowing title)) s).

(** [function cancelScheduledNotification(id)] *)
Definition cancelScheduledNotification (id : string) (s : State) : State :=
  match scheduledNotifications s !! id with
  | Some notification =>
      emit (Console LevelLog (LogCancelled id))
        {| scheduledNotifications := delete id (scheduledNotifications s);
           timers := delete (timeoutId notification) (timers s);   (* clearTimeout *)
           nextTimeoutId := nextTimeoutId s;
           trace := trace s |}
  | None => s
  end.

(** [setTimeout(callback, delay)]: a fresh handle; a [NaN] delay counts as 0. *)
Definition setTimeout (cb : Timer) (s : State) : nat * State :=
  (nextTimeoutId s,
   {| scheduledNotifications := scheduledNotifications s;
      timers := <[nextTimeoutId s := cb]> (timers s);
      nextTimeoutId := S (nextTimeoutId s);
      trace := trace s |}).

Definition store_set (id : string) (n : Scheduled) (s : State) : State :=
  {| scheduledNotifications := <[id := n]> (scheduledNotifications s);
     timers := timers s;
     nextTimeoutId := nextTimeoutId s;
     trace := trace s |}.

Definition store_delete (id : string) (s : State) : State :=
  {| scheduledNotifications := delete id (scheduledNotifications s);
     timers := timers s;
     nextTimeoutId := nextTimeoutId s;
     trace := trace s |}.

(** [triggerTime - now] *)
Definition delay_of (scheduledTime : option Z) (now : Z) : option Z :=
  match scheduledTime with Some triggerTime => Some (triggerTime - now) | None => None end.

(** [function scheduleNotification(id, title, body, scheduledTime)], with
    the value [now] that [Date.now()] returns.  Every path returns
    [undefined]; nothing is thrown.  The code passes [delay] to
    [setTimeout] as it is; the delay recorded for the timeout is what
    [setTimeout] makes of it, 0 for [NaN]. *)
Definition scheduleNotification
    (id title body : string) (scheduledTime : option Z) (now : Z) (s : State) : State :=
  let s := cancelScheduledNotification id s in
  let delay := delay_of scheduledTime now in
  let s := emit (Console LevelLog (LogScheduling title)) s in
  let s := emit (Console LevelLog LogScheduledFor) s in
  let s := emit (Console LevelLog (LogWillTriggerIn delay)) s in
  if num_le delay 0 then
    showNotification title body (JsString id) (emit (Console LevelLog LogTimePassed) s)
  else if num_gt delay MAX_TIMEOUT then
    emit (Console LevelWarn LogDelayTooLong) s
  else
    let '(tid, s) :=
      setTimeout {| cb_title := title; cb_body := body; cb_id := id;
                    timer_delay := default 0 delay |} s in
    let s := store_set id {| timeoutId := tid; title := title; body := body;
                             scheduledTime := scheduledTime |} s in
    emit (Console LevelLog (LogTotalScheduled (size (scheduledNotifications s)))) s.

(** The callback of an armed timeout runs: the timeout is spent, the alert
    is shown, the entry of the captured id is deleted.  A handle that is
    not armed does not fire. *)
Definition fire (tid : nat) (s : State) : State :=
  match timers s !! tid with
  | Some cb =>
      let s := {| scheduledNotifications := scheduledNotifications s;
                  timers := delete tid (timers s);
                  nextTimeoutId := nextTimeoutId s;
                  trace := trace s |} in
      let s := emit (Console LevelLog (LogTriggering (cb_title cb))) s in
      let s := showNotification (cb_title cb) (cb_body cb) (JsString (cb_id cb)) s in
      store_delete (cb_id cb) s
  | None => s
  end.

(** [event.data] of the message listener, by its [type] field. *)
Inductive Message :=
| SCHEDULE_NOTIFICATION (id title body : string) (scheduledTime : option Z)
| CANCEL_NOTIFICATION (id : string)
| GET_SCHEDULED (has_port : bool)         (* whether event.ports[0] is there *)
| SKIP_WAITING
| OtherMessage.

(** [self.addEventListener('message', ...)].  A GET_SCHEDULED message
    that comes without a port makes [event.ports[0].postMessage] throw:
    nothing is posted and the listener ends there. *)
Definition onmessage (m : Message) (now : Z) (s : State) : State :=
  let s := emit (Console LevelLog LogMessageReceived) s in
  match m with
  | SCHEDULE_NOTIFICATION id title body scheduledTime =>
      scheduleNotification id title body scheduledTime now s
  | CANCEL_NOTIFICATION id => cancelScheduledNotification id s
  | GET_SCHEDULED true => emit (PostReply (dom (scheduledNotifications s))) s
  | GET_SCHEDULED false => emit UncaughtTypeError s
  | SKIP_WAITING => emit SkipWaiting s
  | OtherMessage => s
  end.

(** What the worker's event loop runs. *)
Inductive Event :=
| Receive (m : Message) (now : Z)
| Timeout (tid : nat).

Definition step (s : State) (e : Event) : State :=
  match e with
  | Receive m now => onmessage m now s
  | Timeout tid => fire tid s
  end.

Definition run (es : list Event) (s : State) : State := fold_left step es s.

(** The notifications shown so far, oldest first. *)
Definition shown (s : State) : list (string * NotificationOptions) :=
  omap (fun e => match e with ShowNotification t o => Some (t, o) | _ => None end) (trace s).

(** An armed timeout whose callback is for [id]. *)
Definition armed_for (s : State) (id : string) : Prop :=
  ∃ tid cb, timers s !! tid = Some cb ∧ cb_id cb = id.

(** Store and timeouts correspond one to one. *)
Record coherent (s : State) : Prop := {
  coh_entry : ∀ id n, scheduledNotifications s !! id = Some n →
      ∃ cb, timers s !! timeoutId n = Some cb ∧ cb_id cb = id
            ∧ cb_title cb = title n ∧ cb_body cb = body n;
  coh_timer : ∀ tid cb, timers s !! tid = Some cb →
      ∃ n, scheduledNotifications s !! cb_id cb = Some n ∧ timeoutId n = tid;
  coh_fresh : ∀ tid, (nextTimeoutId s ≤ tid)%nat → timers s !! tid = None;
  coh_size : size (scheduledNotifications s) = size (timers s)
}.

(** The timeout of every entry whose time could be read has a delay that
    is positive and within the range of [setTimeout]. *)
Definition readable_in_range (s : State) : Prop :=
  ∀ id n ms,
    scheduledNotifications s !! id = Some n → scheduledTime n = Some ms →
    ∃ cb, timers s !! timeoutId n = Some cb ∧ cb_id cb = id
          ∧ (0 < timer_delay cb <= MAX_TIMEOUT)%Z.

End ServiceWorker.

(** ** Strings, as [parseTimeToDate] uses them

    A string is its sequence of code units; the model has the code units
    below 256. *)

Module JsString.

Local Open Scope string_scope.
Local Open Scope Z_scope.

Definition code (c : ascii) : Z := Z.of_N (N_of_ascii c).

(** White space and line terminators: TAB, LF, VT, FF, CR, SP, NBSP. *)
Definition is_ws (c : ascii) : bool :=
  let n := code c in
  ((9 <=? n) && (n <=? 13)) || (n =? 32) || (n =? 160).

Fixpoint trimStart (s : string) : string :=
  match s with
  | String c r => if is_ws c then trimStart r else s
  | EmptyString => EmptyString
  end.

Fixpoint trimEnd (s : string) : string :=
  match s with
  | String c r =>
      match trimEnd r with
      | EmptyString => if is_ws c then EmptyString else String c EmptyString
      | r' => String c r'
      end
  | EmptyString => EmptyString
  end.

(** [s.trim()] *)
Definition trim (s : string) : string := trimEnd (trimStart s).

(** [s.includes(needle)] *)
Fixpoint includes (needle s : string) : bool :=
  String.prefix needle s ||
  match s with
  | String _ r => includes needle r
  | EmptyString => false
  end.

Definition lower (c : ascii) : ascii :=
  let n := code c in
  if ((65 <=? n) && (n <=? 90)) || ((192 <=? n) && (n <=? 222) && negb (n =? 215))
  then ascii_of_N (Z.to_N (n + 32)) else c.

(** [s.toLowerCase()] *)
Fixpoint toLowerCase (s : string) : string :=
  match s with
  | String c r => String (lower c) (toLowerCase r)
  | EmptyString => EmptyString
  end.

(** One match of [/AM|PM|am|pm/i] at the head of the string: an [a] or a
    [p] followed by an [m], in either case. *)
Definition meridiem_at (c d : ascii) : bool :=
  let c := lower c in
  ((Ascii.eqb c "a") || (Ascii.eqb c "p")) && Ascii.eqb (lower d) "m".

(** [s.replace(/AM|PM|am|pm/gi, '')]: every match, left to right, is
    dropped. *)
Fixpoint removeMeridiem (s : string) : string :=
  match s with
  | String c r =>
      match r with
      | String d r' =>
          if meridiem_at c d then removeMeridiem r' else String c (removeMeridiem r)
      | EmptyString => s
      end
  | EmptyString => EmptyString
  end.

(** [s.split(sep)] for a separator of one code unit; the result has at
    least one part. *)
Fixpoint split (sep : ascii) (s : string) : list string :=
  match s with
  | String c r =>
      if Ascii.eqb c sep then EmptyString :: split sep r
      else match split sep r with
           | p :: ps => String c p :: ps
           | [] => [String c EmptyString]
           end
  | EmptyString => [EmptyString]
  end.

(** The value of a digit in the given radix, if it is one. *)
Definition digit_value (radix : Z) (c : ascii) : option Z :=
  let n := code c in
  let v := if (48 <=? n) && (n <=? 57) then Some (n - 48)
           else if (97 <=? n) && (n <=? 122) then Some (n - 87)
           else if (65 <=? n) && (n <=? 90) then Some (n - 55)
           else None in
  match v with
  | Some d => if d <? radix then Some d else None
  | None => None
  end.

(** The longest prefix of digits, as a number; [acc] is [None] until a
    digit has been read. *)
Fixpoint digits_value (radix : Z) (acc : option Z) (s : string) : option Z :=
  match s with
  | String c r =>
      match digit_value radix c with
      | Some d => digits_value radix (Some (default 0 acc * radix + d)) r
      | None => acc
      end
  | EmptyString => acc
  end.

(** [parseInt(s)] without a radix: leading white space, a sign, a [0x]
    prefix for radix 16, then the longest prefix of digits; [None] is
    [NaN].  The mathematical value is kept where JavaScript rounds it to a
    double; the two agree on every comparison with the bounds 0, 12, 23
    and 59 that the parser makes. *)
Definition parseInt (s : string) : option Z :=
  let s := trimStart s in
  let '(sign, s) :=
    match s with
    | String "-" r => (-1, r)
    | String "+" r => (1, r)
    | _ => (1, s)
    end in
  let '(radix, s) :=
    match s with
    | String "0" (String x r) =>
        if (Ascii.eqb x "x") || (Ascii.eqb x "X") then (16, r) else (10, s)
    | _ => (10, s)
    end in
  match digits_value radix None s with
  | Some v => Some (sign * v)
  | None => None
  end.

(** A string of white space only. *)
Fixpoint all_ws (s : string) : bool :=
  match s with
  | String c r => is_ws c && all_ws r
  | EmptyString => true
  end.

End JsString.

(** ** Dates, as [parseTimeToDate] uses them

    A [Date] is its time value, in milliseconds since the epoch, UTC.  The
    local-time methods go through the time zone of the host (ECMA-262,
    LocalTime and UTC): [tza_utc t] is the offset in force at the instant
    [t]; [tza_local l] is the offset by which the local time [l] is read
    back, which for a local time that occurs twice, when the clocks are
    set back, is the offset before the transition.  Time values are far
    from the ends of the range of [Date] (TimeClip is the identity). *)

Module JsDate.

Record TimeZone := {
  tza_utc : Z → Z;
  tza_local : Z → Z
}.

(** A zone whose offset never changes. *)
Definition fixed_zone (offset : Z) : TimeZone :=
  {| tza_utc := fun _ => offset; tza_local := fun _ => offset |}.

Definition msPerSecond : Z := 1000.
Definition msPerMinute : Z := 60000.
Definition msPerHour : Z := 3600000.
Definition msPerDay : Z := 86400000.

Definition LocalTime (tz : TimeZone) (t : Z) : Z := t + tza_utc tz t.
Definition UTC (tz : TimeZone) (l : Z) : Z := l - tza_local tz l.

Definition Day (l : Z) : Z := l / msPerDay.
Definition TimeWithinDay (l : Z) : Z := l mod msPerDay.
Definition HourFromTime (l : Z) : Z := (l / msPerHour) mod 24.
Definition MinFromTime (l : Z) : Z := (l / msPerMinute) mod 60.
Definition SecFromTime (l : Z) : Z := (l / msPerSecond) mod 60.
Definition msFromTime (l : Z) : Z := l mod msPerSecond.

Definition MakeTime (hour min sec ms : Z) : Z :=
  hour * msPerHour + min * msPerMinute + sec * msPerSecond + ms.

Definition MakeDate (day time : Z) : Z := day * msPerDay + time.

Definition getHours (tz : TimeZone) (t : Z) : Z := HourFromTime (LocalTime tz t).
Definition getMinutes (tz : TimeZone) (t : Z) : Z := MinFromTime (LocalTime tz t).
Definition getSeconds (tz : TimeZone) (t : Z) : Z := SecFromTime (LocalTime tz t).
Definition getMilliseconds (tz : TimeZone) (t : Z) : Z := msFromTime (LocalTime tz t).

(** [d.setHours(hour, min, sec, ms)] *)
Definition setHours (tz : TimeZone) (hour min sec ms : Z) (t : Z) : Z :=
  UTC tz (MakeDate (Day (LocalTime tz t)) (MakeTime hour min sec ms)).

(** [d.setMinutes(min)]: the other fields of the local time stay. *)
Definition setMinutes (tz : TimeZone) (min : Z) (t : Z) : Z :=
  let l := LocalTime tz t in
  UTC tz (MakeDate (Day l) (MakeTime (HourFromTime l) min (SecFromTime l) (msFromTime l))).

(** [d.setDate(d.getDate() + 1)]: MakeDay carries a day of the month past
    the end of the month into the next one, so the day number of the local
    time goes up by one and the time within the day stays.  The calendar
    (year, month, day of the month) is not needed to say so and is not
    modelled. *)
Definition setDateNextDay (tz : TimeZone) (t : Z) : Z :=
  let l := LocalTime tz t in
  UTC tz (MakeDate (Day l + 1) (TimeWithinDay l)).

End JsDate.

(** ** [parseTimeToDate]

    The function exists twice: in [lib/background-notifications.ts], which
    logs ([Verbose]), and in a sibling file with the same class that has
    the logging removed ([Quiet]).  The two differ in how the 12-hour
    format is recognised and in what they write to the console. *)

Module TimeParser.

Import JsString JsDate.
Local Open Scope string_scope.
Local Open Scope Z_scope.

Inductive Variant := Verbose | Quiet.

Inductive LogLine :=
| InvalidTimeFormat (timeStr : string)    (* 'Invalid time format:', timeStr *)
| SchedulingForTomorrow.                  (* Time has passed today, scheduling for tomorrow *)

(** The three [new Date()] of one call, in the order they are made: [now],
    [scheduledTime], and [fallback] when validation fails. *)
Record Clock := {
  read_now : Z;
  read_scheduledTime : Z;
  read_fallback : Z
}.

(** All three reads in the same millisecond. *)
Definition at_instant (t : Z) : Clock :=
  {| read_now := t; read_scheduledTime := t; read_fallback := t |}.

Record Parsed := {
  date : Z;
  console : list (LogLevel * LogLine)
}.

(** The condition that selects the 12-hour branch. *)
Definition has_meridiem (v : Variant) (timeStr : string) : bool :=
  match v with
  | Verbose =>
      includes "AM" timeStr || includes "PM" timeStr
      || includes "am" timeStr || includes "pm" timeStr
  | Quiet =>
      includes "am" (toLowerCase timeStr) || includes "pm" (toLowerCase timeStr)
  end.

(** [parts[1] ? parseInt(parts[1]) : 0] *)
Definition minutes_part (parts : list string) : option Z :=
  match parts with
  | _ :: p1 :: _ => if String.eqb p1 "" then Some 0 else parseInt p1
  | _ => Some 0
  end.

(** [parseInt(parts[0])]; [split] never returns an empty array. *)
Definition hours_part (parts : list string) : option Z :=
  match parts with
  | p0 :: _ => parseInt p0
  | [] => None
  end.

(** [hours] and [minutes] as they reach the validation, from the trimmed
    string; [None] is [NaN]. *)
Definition fields (v : Variant) (timeStr : string) : option Z * option Z :=
  if has_meridiem v timeStr then
    let isPM := includes "pm" (toLowerCase timeStr) in
    let cleanTime := trim (removeMeridiem timeStr) in
    let parts := split ":" cleanTime in
    let hours := hours_part parts in
    let minutes := minutes_part parts in
    (* if (isPM && hours !== 12) hours += 12 *)
    let hours :=
      match hours with
      | Some h => if isPM && negb (h =? 12) then Some (h + 12) else hours
      | None => None
      end in
    (* if (!isPM && hours === 12) hours = 0 *)
    let hours :=
      match hours with
      | Some h => if negb isPM && (h =? 12) then Some 0 else hours
      | None => None
      end in
    (hours, minutes)
  else
    let parts := split ":" timeStr in
    (hours_part parts, minutes_part parts).

(** The validated fields, or [None] when the validation fails:
    [isNaN(hours) || isNaN(minutes) || hours < 0 || hours > 23 ||
     minutes < 0 || minutes > 59]. *)
Definition validate (hm : option Z * option Z) : option (Z * Z) :=
  match hm with
  | (Some hours, Some minutes) =>
      if (hours <? 0) || (23 <? hours) || (minutes <? 0) || (59 <? minutes)
      then None else Some (hours, minutes)
  | _ => None
  end.

Definition only (v : Variant) (line : LogLevel * LogLine) : list (LogLevel * LogLine) :=
  match v with Verbose => [line] | Quiet => [] end.

(** [function parseTimeToDate(timeStr)] *)
Definition parseTimeToDate
    (v : Variant) (tz : TimeZone) (clock : Clock) (timeStr : string) : Parsed :=
  let now := read_now clock in
  let scheduledTime := read_scheduledTime clock in
  let timeStr := trim timeStr in
  match validate (fields v timeStr) with
  | None =>
      let fallback := read_fallback clock in
      {| date := setMinutes tz (getMinutes tz fallback + 1) fallback;
         console := only v (LevelError, InvalidTimeFormat timeStr) |}
  | Some (hours, minutes) =>
      let scheduledTime := setHours tz hours minutes 0 0 scheduledTime in
      if scheduledTime <=? now then
        {| date := setDateNextDay tz scheduledTime;
           console := only v (LevelLog, SchedulingForTomorrow) |}
      else
        {| date := scheduledTime; console := [] |}
  end.

(** *** The inputs of the 12-hour format, written out

    [h:mm], white space, and the marker in either case of each letter. *)

Inductive Meridiem := AM | PM.

Definition digit (n : Z) : ascii := ascii_of_N (Z.to_N (48 + n)).

Definition two_digits (n : Z) : string :=
  String (digit (n / 10)) (String (digit (n mod 10)) EmptyString).

(** The hour, with or without a leading zero. *)
Definition hour_text (padded : bool) (h : Z) : string :=
  if padded || (10 <=? h) then two_digits h else String (digit h) EmptyString.

Fixpoint spaces (n : nat) : string :=
  match n with
  | O => EmptyString
  | S k => String " " (spaces k)
  end.

Definition marker_text (m : Meridiem) (upper1 upper2 : bool) : string :=
  String (match m, upper1 with
          | AM, true => "A" | AM, false => "a"
          | PM, true => "P" | PM, false => "p"
          end)%char
         (String (if upper2 then "M" else "m")%char EmptyString).

(** [mm] is [None] when the minutes are absent. *)
Definition clock_text (padded : bool) (h : Z) (mm : option Z) : string :=
  hour_text padded h ++
  match mm with
  | Some m => String ":" (two_digits m)
  | None => EmptyString
  end.

Definition input12
    (padded : bool) (h : Z) (mm : option Z) (gap : nat)
    (m : Meridiem) (upper1 upper2 : bool) : string :=
  clock_text padded h mm ++ spaces gap ++ marker_text m upper1 upper2.

(** The code units of [h:mm]: digits and the colon; with the blank, the
    code units that are no part of a marker. *)
Definition plain (c : ascii) : bool :=
  ((48 <=? code c) && (code c <=? 57)) || Ascii.eqb c ":".

Definition inert (c : ascii) : bool := plain c || Ascii.eqb c " ".

Fixpoint all_plain (s : string) : bool :=
  match s with
  | String c r => plain c && all_plain r
  | EmptyString => true
  end.

Fixpoint all_inert (s : string) : bool :=
  match s with
  | String c r => inert c && all_inert r
  | EmptyString => true
  end.

(** What the parser reads in [h:mm] once the marker is gone. *)
Definition clock_reads (padded : bool) (h : Z) (mm : option Z) : bool :=
  let text := clock_text padded h mm in
  all_plain text
  && match text with String _ _ => true | EmptyString => false end
  && match hours_part (split ":" text), minutes_part (split ":" text) with
     | Some a, Some b => (a =? h) && (b =? default 0 mm)
     | _, _ => false
     end.

Definition every_clock_reads : bool :=
  forallb (fun h =>
    forallb (fun padded =>
      clock_reads padded h None
      && forallb (fun m => clock_reads padded h (Some m)) (seqZ 0 60))
    [true; false])
  (seqZ 1 12).

(** The same for the hours of the 24-hour format. *)
Definition every_clock_reads_24 : bool :=
  forallb (fun h =>
    forallb (fun padded =>
      clock_reads padded h None
      && forallb (fun m => clock_reads padded h (Some m)) (seqZ 0 60))
    [true; false])
  (seqZ 0 24).

(** The 24-hour hour of the spec's table. *)
Definition normalized24 (h : Z) (m : Meridiem) : Z :=
  match m with
  | AM => if h =? 12 then 0 else h
  | PM => if h =? 12 then 12 else h + 12
  end.

(** The shapes [H] and [H:MM] of the spec, with an optional marker: one or
    two digits, then, optionally, a colon and two digits. *)
Definition is_digit (c : ascii) : bool := (48 <=? code c) && (code c <=? 57).

Definition shape_H_or_HMM (s : string) : bool :=
  let s := trim (removeMeridiem (trim s)) in
  match split ":" s with
  | [h] => forallb is_digit (list_ascii_of_string h)
           && (1 <=? String.length h)%nat && (String.length h <=? 2)%nat
  | [h; m] => forallb is_digit (list_ascii_of_string h)
              && (1 <=? String.length h)%nat && (String.length h <=? 2)%nat
              && forallb is_digit (list_ascii_of_string m)
              && (String.length m =? 2)%nat
  | _ => false
  end.

(** New York on 5 November 2017: at 06:00 UTC the clocks go from 02:00
    (UTC-4) back to 01:00 (UTC-5).  Local times before 02:00 of that day
    are read back with the offset before the transition. *)
Definition transition_2017 : Z := 1509861600000.

Definition new_york_2017 : TimeZone :=
  {| tza_utc := fun t => if t <? transition_2017 then -4 * msPerHour else -5 * msPerHour;
     tza_local := fun l => if l <? transition_2017 - 4 * msPerHour
                           then -4 * msPerHour else -5 * msPerHour |}.

End TimeParser.

(** ** [BackgroundNotificationManager]

    The class exists in the same two files as [parseTimeToDate]
    ([TimeParser.Verbose] logs and sends a test notification,
    [TimeParser.Quiet] does neither).  A method is run from its call to its
    result with the answers the platform gives at each [await]; calls do
    not interleave. *)

Module Manager.

Import TimeParser.

Inductive Permission := PermissionDefault | PermissionGranted | PermissionDenied.

(** A [ServiceWorkerRegistration]: which of its three worker slots are
    not null. *)
Record Registration := {
  installing : bool;
  waiting : bool;
  active : bool
}.

Inductive Worker := InstallingWorker | WaitingWorker | ActiveWorker.

(** The [alert] calls, by the condition they report.

    - [AlertUnsupported]: the browser has no notifications (Verbose lists
      the browsers to use);
    - [AlertInitFailed]: the notification service failed to initialize;
    - [AlertBlocked]: notifications are blocked, with the numbered steps
      to enable them: click the lock icon in the address bar, allow
      notifications, refresh the page (Verbose adds: try again);
    - [AlertYouBlocked]: Verbose, the prompt was answered with a refusal;
    - [AlertDismissed]: Verbose, the prompt was dismissed;
    - [AlertPermissionDenied]: Quiet, the prompt did not grant;
    - [AlertRequestFailed]: Verbose, the prompt threw. *)
Inductive AlertText :=
| AlertUnsupported
| AlertInitFailed
| AlertBlocked
| AlertYouBlocked
| AlertDismissed
| AlertPermissionDenied
| AlertRequestFailed.

Inductive LogLine :=
| NotSupported
| Registered
| WorkerInstalling
| WorkerWaiting
| WorkerReady
| RegistrationFailed
| PermissionAlreadyGranted
| RequestingPermission
| PermissionGrantedNow
| PermissionRequestFailed
| WorkerNotRegistered
| PermissionNotGranted
| NoActiveWorker
| NotificationScheduled (id title body : string) (delay : Z)
| FailedToSchedule
| NotificationCancelled (id : string).

Inductive Effect :=
| Alert (text : AlertText)
| Console (level : LogLevel) (line : LogLine)
| Register                                 (* navigator.serviceWorker.register('/sw.js') *)
| PostMessage (to : Worker) (m : ServiceWorker.Message)
| Prompt                                   (* Notification.requestPermission() *)
| TestNotification.                        (* registration.showNotification, tag 'test-notification' *)

(** What the platform answers while one method runs. *)
Record Platform := {
  permission : Permission;                 (* Notification.permission *)
  register_result : option Registration;   (* None: register() rejects *)
  activation : bool;                       (* the installing worker reaches 'activated' *)
  ready : option Registration;             (* serviceWorker.ready resolves, with the
                                              registration as it is by then; None: never *)
  prompt_result : option Permission        (* None: requestPermission() throws *)
}.

(** The fields of the class. *)
Record Fields := {
  registration : option Registration;
  isSupported : bool;
  isInitialized : bool
}.

(** The result of an [async] method: its promise is fulfilled with a value
    or never settles. *)
Inductive Outcome (A : Type) :=
| Fulfilled (a : A)
| Pending.
Arguments Fulfilled {A} a.
Arguments Pending {A}.

Record Run (A : Type) := {
  outcome : Outcome A;
  fields : Fields;
  effects : list Effect
}.
Arguments outcome {A} r.
Arguments fields {A} r.
Arguments effects {A} r.

(** [checkSupport()] *)
Definition checkSupport (has_window serviceWorker_in_navigator notification_in_window : bool) : bool :=
  has_window && serviceWorker_in_navigator && notification_in_window.

Definition talk (v : Variant) (e : Effect) : list Effect :=
  match v with Verbose => [e] | Quiet => [] end.

Definition set_registration (r : option Registration) (m : Fields) : Fields :=
  {| registration := r; isSupported := isSupported m; isInitialized := isInitialized m |}.

Definition set_initialized (m : Fields) : Fields :=
  {| registration := registration m; isSupported := isSupported m; isInitialized := true |}.

(** [async initialize()] *)
Definition initialize (v : Variant) (p : Platform) (m : Fields) : Run bool :=
  if negb (isSupported m) then
    {| outcome := Fulfilled (match v with Verbose => false | Quiet => isInitialized m end);
       fields := m;
       effects := talk v (Console LevelError NotSupported) |}
  else if isInitialized m then
    {| outcome := Fulfilled true; fields := m; effects := [] |}
  else
    match register_result p with
    | None =>
        {| outcome := Fulfilled false; fields := m;
           effects := [Register; Console LevelError RegistrationFailed] |}
    | Some r =>
        let m := set_registration (Some r) m in
        let e := Register :: talk v (Console LevelLog Registered) in
        let waited :=
          if installing r then
            (activation p, talk v (Console LevelLog WorkerInstalling))
          else if waiting r then
            (true, talk v (Console LevelLog WorkerWaiting)
                   ++ [PostMessage WaitingWorker ServiceWorker.SKIP_WAITING])
          else (true, []) in
        let e := e ++ snd waited in
        if fst waited then
          match ready p with
          | Some r' =>
              {| outcome := Fulfilled true;
                 fields := set_initialized (set_registration (Some r') m);
                 effects := e ++ talk v (Console LevelLog WorkerReady) |}
          | None => {| outcome := Pending; fields := m; effects := e |}
          end
        else {| outcome := Pending; fields := m; effects := e |}
    end.

(** [sendTestNotification()], which only the logging file has; [granted]
    is [Notification.permission === 'granted'] at the call. *)
Definition sendTestNotification (v : Variant) (granted : bool) (m : Fields) : list Effect :=
  match v with
  | Verbose => if is_Some_dec (registration m) then
                 if granted then [TestNotification] else []
               else []
  | Quiet => []
  end.

(** The part of [requestPermission] after the manager is initialized. *)
Definition requestPermission_ready (v : Variant) (p : Platform) (m : Fields) : bool * list Effect :=
  match permission p with
  | PermissionGranted =>
      (true, talk v (Console LevelLog PermissionAlreadyGranted)
             ++ sendTestNotification v true m)
  | PermissionDenied => (false, [Alert AlertBlocked])
  | PermissionDefault =>
      let e := talk v (Console LevelLog RequestingPermission) ++ [Prompt] in
      match prompt_result p with
      | Some PermissionGranted =>
          (true, e ++ talk v (Console LevelLog PermissionGrantedNow)
                   ++ sendTestNotification v true m)
      | Some PermissionDenied =>
          (false, e ++ [Alert (match v with Verbose => AlertYouBlocked
                                          | Quiet => AlertPermissionDenied end)])
      | Some PermissionDefault =>
          (false, e ++ [Alert (match v with Verbose => AlertDismissed
                                          | Quiet => AlertPermissionDenied end)])
      | None =>
          (false, e ++ [Console LevelError PermissionRequestFailed]
                    ++ talk v (Alert AlertRequestFailed))
      end
  end.

(** [async requestPermission()] *)
Definition requestPermission (v : Variant) (p : Platform) (m : Fields) : Run bool :=
  if negb (isSupported m) then
    {| outcome := Fulfilled false; fields := m; effects := [Alert AlertUnsupported] |}
  else
    let continue (m : Fields) (e : list Effect) : Run bool :=
      let '(result, e') := requestPermission_ready v p m in
      {| outcome := Fulfilled result; fields := m; effects := e ++ e' |} in
    if negb (isInitialized m) then
      let i := initialize v p m in
      match outcome i with
      | Pending => {| outcome := Pending; fields := fields i; effects := effects i |}
      | Fulfilled false =>
          {| outcome := Fulfilled false; fields := fields i;
             effects := effects i ++ [Alert AlertInitFailed] |}
      | Fulfilled true => continue (fields i) (effects i)
      end
    else continue m [].

(** [this.registration.active || this.registration.waiting ||
     this.registration.installing] *)
Definition pick_worker (r : Registration) : option Worker :=
  if active r then Some ActiveWorker
  else if waiting r then Some WaitingWorker
  else if installing r then Some InstallingWorker
  else None.

(** [async scheduleNotification(id, title, body, scheduledTime)].
    [scheduledTime] is the time value of the [Date], [None] for an invalid
    date, on which [toISOString()] throws; [now] is the [new Date()] the
    logging file reads for its log line. *)
Definition scheduleNotification
    (v : Variant) (p : Platform) (now : Z)
    (id title body : string) (scheduledTime : option Z) (m : Fields) : Run bool :=
  let i := if negb (isInitialized m) then initialize v p m
           else {| outcome := Fulfilled true; fields := m; effects := [] |} in
  match outcome i with
  | Pending => {| outcome := Pending; fields := fields i; effects := effects i |}
  | Fulfilled _ =>
      let m := fields i in
      let finish (result : bool) (e : list Effect) : Run bool :=
        {| outcome := Fulfilled result; fields := m; effects := effects i ++ e |} in
      match registration m with
      | None => finish false (talk v (Console LevelError WorkerNotRegistered))
      | Some r =>
          match permission p with
          | PermissionGranted =>
              match pick_worker r with
              | None => finish false (talk v (Console LevelError NoActiveWorker))
              | Some sw =>
                  match scheduledTime with
                  | None => finish false [Console LevelError FailedToSchedule]
                  | Some t =>
                      finish true
                        (PostMessage sw (ServiceWorker.SCHEDULE_NOTIFICATION id title body (Some t))
                         :: talk v (Console LevelLog
                                      (NotificationScheduled id title body (t - now))))
                  end
              end
          | _ => finish false (talk v (Console LevelError PermissionNotGranted))
          end
      end
  end.

(** [cancelNotification(id)] *)
Definition cancelNotification (v : Variant) (id : string) (m : Fields) : list Effect :=
  match registration m with
  | Some r =>
      if active r then
        PostMessage ActiveWorker (ServiceWorker.CANCEL_NOTIFICATION id)
        :: talk v (Console LevelLog (NotificationCancelled id))
      else []
  | None => []
  end.

(** [hasPermission()] and [isReady()] *)
Definition hasPermission (p : Platform) : bool :=
  match permission p with PermissionGranted => true | _ => false end.

Definition isReady (m : Fields) : bool :=
  isSupported m && isInitialized m && bool_decide (is_Some (registration m)).

(** [scheduleBackgroundNotification(activityId, activityName, time)]: the
    logging file shows a fixed title and the name after [Time to:], the
    other one the name and the time string. *)
Definition scheduleBackgroundNotification
    (v : Variant) (tz : JsDate.TimeZone) (clock : Clock) (p : Platform) (now : Z)
    (activityId activityName time : string) (m : Fields) : Run bool :=
  let scheduledTime := date (parseTimeToDate v tz clock time) in
  match v with
  | Verbose =>
      scheduleNotification v p now activityId "⏰ Activity Reminder"%string
        ("Time to: " ++ activityName)%string (Some scheduledTime) m
  | Quiet =>
      scheduleNotification v p now activityId activityName time (Some scheduledTime) m
  end.

(** The alerts of a run, in order. *)
Definition alerts {A} (r : Run A) : list AlertText :=
  omap (fun e => match e with Alert a => Some a | _ => None end) (effects r).

(** The messages a run posts to the worker, in order. *)
Definition posted {A} (r : Run A) : list ServiceWorker.Message :=
  omap (fun e => match e with PostMessage _ m => Some m | _ => None end) (effects r).

(** How many times a run prompts for the permission. *)
Definition prompts {A} (r : Run A) : nat :=
  length (omap (fun e => match e with Prompt => Some tt | _ => None end) (effects r)).



End Manager.

(** ** The service worker: clicks on a notification *)

Module NotificationClick.

Import JsString.

Inductive Effect :=
| CloseNotification                        (* event.notification.close() *)
| Focus (index : nat) (url : string)       (* clientList[index].focus() *)
| OpenWindow (url : string).               (* self.clients.openWindow(url) *)

(** [client.url === '/' || client.url.includes(self.registration.scope)] *)
Definition is_app_window (scope url : string) : bool :=
  String.eqb url "/" || includes scope url.

(** The [for] loop over [clientList], from index [i]: the first window of
    the app. *)
Fixpoint first_app_window (scope : string) (clientList : list string) (i : nat)
  : option (nat * string) :=
  match clientList with
  | url :: rest =>
      if is_app_window scope url then Some (i, url)
      else first_app_window scope rest (S i)
  | [] => None
  end.

(** [self.addEventListener('notificationclick', ...)]: [action] is
    [event.action], [clientList] the urls of the windows that
    [clients.matchAll] returns, [has_openWindow] whether
    [self.clients.openWindow] is there. *)
Definition notificationclick
    (action scope : string) (clientList : list string) (has_openWindow : bool)
  : list Effect :=
  CloseNotification ::
  if String.eqb action "close" then []
  else
    match first_app_window scope clientList 0 with
    | Some (i, url) => [Focus i url]
    | None => if has_openWindow then [OpenWindow "/"] else []
    end.

End NotificationClick.

(** ** The service worker: the cache of the app shell

    [CacheStorage] is the list of the caches of the origin, oldest first,
    each with its name; a cache maps the url of a request to the response
    stored for it.  The promise chain that a handler starts is run to its
    end before the next event. *)

Module Caching.

Import JsString.

Definition CACHE_NAME : string := "wexly-v1".

Definition urlsToCache : list string :=
  ["/"; "/manifest.json"; "/icon-192x192.jpg"; "/icon-512x512.jpg"]%string.

Inductive ResponseType :=
| TypeBasic | TypeCors | TypeDefault | TypeError | TypeOpaque | TypeOpaqueRedirect.

Record Response := {
  status : Z;
  type : ResponseType;
  body : string
}.

Record Request := {
  method : string;
  url : string
}.

Abbreviation CacheStorage := (list (string * gmap string Response)).

Inductive LogLine :=
| LogInstalling
| LogCachingAppShell
| LogActivating
| LogDeletingOldCache (name : string)
| LogSkippingNonGet (method : string)
| LogFailedToCache (url : string)
| LogServingFromCache (url : string).

(** [caches.match(request)]: the first cache, in the order of creation,
    that holds a response for the url. *)
Fixpoint caches_match (url : string) (cs : CacheStorage) : option Response :=
  match cs with
  | (_, cache) :: rest =>
      match cache !! url with
      | Some r => Some r
      | None => caches_match url rest
      end
  | [] => None
  end.

Definition caches_has (name : string) (cs : CacheStorage) : bool :=
  existsb (fun nc => String.eqb (fst nc) name) cs.

(** [caches.open(name)]: the cache is created, empty, when there is none
    of that name. *)
Definition caches_open (name : string) (cs : CacheStorage) : CacheStorage :=
  if caches_has name cs then cs else cs ++ [(name, ∅)].

(** [cache.put(request, response)] on the cache of that name. *)
Definition cache_put (name url : string) (r : Response) (cs : CacheStorage)
  : CacheStorage :=
  map (fun nc => if String.eqb (fst nc) name then (fst nc, <[url := r]> (snd nc)) else nc) cs.

(** The response of the [catch] branch when nothing is cached. *)
Definition offline_response : Response :=
  {| status := 503; type := TypeDefault; body := "Offline - Content not cached" |}.

(** What becomes of the request. *)
Inductive Served :=
| NotIntercepted                 (* the handler returns without respondWith *)
| Answer (r : Response)          (* the promise given to respondWith is fulfilled *)
| NetworkError.                  (* the promise given to respondWith is rejected *)

Record Handled := {
  served : Served;
  caches_after : CacheStorage;
  console : list (LogLevel * LogLine)
}.

(** [url.includes('/api/') || url.includes('/_next/data/')] *)
Definition is_dynamic (url : string) : bool :=
  includes "/api/" url || includes "/_next/data/" url.

(** The negation of
    [!response || response.status !== 200 || response.type === 'error'];
    a response that [fetch] resolves with is never null. *)
Definition worth_caching (r : Response) : bool :=
  (status r =? 200) && match type r with TypeError => false | _ => true end.

(** [self.addEventListener("fetch", ...)]: [network] is what
    [fetch(event.request)] resolves with, [None] when it rejects; [put_ok]
    is whether [cache.put] succeeds. *)
Definition onfetch
    (req : Request) (network : option Response) (put_ok : bool) (cs : CacheStorage)
  : Handled :=
  if negb (String.eqb (method req) "GET") then
    {| served := NotIntercepted; caches_after := cs;
       console := [(LevelLog, LogSkippingNonGet (method req))] |}
  else if String.prefix "chrome-extension://" (url req) then
    {| served := NotIntercepted; caches_after := cs; console := [] |}
  else if is_dynamic (url req) then
    {| served := match network with Some r => Answer r | None => NetworkError end;
       caches_after := cs; console := [] |}
  else
    match network with
    | Some response =>
        if worth_caching response then
          let cs := caches_open CACHE_NAME cs in
          if put_ok then
            {| served := Answer response;
               caches_after := cache_put CACHE_NAME (url req) response cs;
               console := [] |}
          else
            {| served := Answer response; caches_after := cs;
               console := [(LevelWarn, LogFailedToCache (url req))] |}
        else
          {| served := Answer response; caches_after := cs; console := [] |}
    | None =>
        match caches_match (url req) cs with
        | Some cachedResponse =>
            {| served := Answer cachedResponse; caches_after := cs;
               console := [(LevelLog, LogServingFromCache (url req))] |}
        | None =>
            {| served := Answer offline_response; caches_after := cs; console := [] |}
        end
    end.

(** [self.addEventListener("activate", ...)]: every cache with another
    name is deleted; then [clients.claim()]. *)
Definition onactivate (cs : CacheStorage) : CacheStorage * list (LogLevel * LogLine) :=
  (List.filter (fun nc => String.eqb (fst nc) CACHE_NAME) cs,
   (LevelLog, LogActivating)
   :: map (fun nc => (LevelLog, LogDeletingOldCache (fst nc)))
        (List.filter (fun nc => negb (String.eqb (fst nc) CACHE_NAME)) cs)).

(** [response.ok] *)
Definition ok (r : Response) : bool := (200 <=? status r) && (status r <=? 299).

(** One put of [addAll]: the response fetched for the url. *)
Definition put_fetched
    (name : string) (fetch : string → option Response) (cs : CacheStorage) (u : string)
  : CacheStorage :=
  match fetch u with
  | Some r => cache_put name u r cs
  | None => cs
  end.

(** [cache.addAll(urls)]: every url is fetched; the responses are stored
    when all of them arrived and are [ok], and none is stored otherwise. *)
Definition addAll
    (name : string) (urls : list string) (fetch : string → option Response)
    (cs : CacheStorage) : bool * CacheStorage :=
  if forallb (fun u => match fetch u with Some r => ok r | None => false end) urls
  then (true, fold_left (put_fetched name fetch) urls cs)
  else (false, cs).

(** [self.addEventListener("install", ...)]: the paths of [urlsToCache]
    are resolved against the origin of the worker.  The result says
    whether the promise given to [waitUntil] is fulfilled.
    [self.skipWaiting()] is called in either case. *)
Definition oninstall
    (origin : string) (fetch : string → option Response) (cs : CacheStorage)
  : bool * CacheStorage :=
  addAll CACHE_NAME (map (fun path => (origin ++ path)%string) urlsToCache) fetch
    (caches_open CACHE_NAME cs).

End Caching.

(** * Properties of the service worker's scheduler *)

Module SchedulerFacts.

Import ServiceWorker.

Lemma coherent_initial : coherent initial.
Proof. split; intros *; cbn; try rewrite lookup_empty; done. Qed.

(** Writing to the trace touches neither the store nor the timeouts. *)
Lemma coherent_emit e s : coherent s ↔ coherent (emit e s).
Proof. split; intros [H1 H2 H3 H4]; split; cbn in *; auto. Qed.

Lemma coherent_showNotification t b tag s :
  coherent s → coherent (showNotification t b tag s).
Proof. intros H. unfold showNotification. by do 2 apply coherent_emit. Qed.

(** Two entries never share a timeout. *)
Lemma entry_timeout_inj s id1 id2 n1 n2 :
  coherent s →
  scheduledNotifications s !! id1 = Some n1 →
  scheduledNotifications s !! id2 = Some n2 →
  timeoutId n1 = timeoutId n2 → id1 = id2.
Proof.
  intros Hc H1 H2 Heq.
  destruct (coh_entry s Hc _ _ H1) as (cb1 & Ht1 & <- & _).
  destruct (coh_entry s Hc _ _ H2) as (cb2 & Ht2 & <- & _).
  rewrite Heq in Ht1. congruence.
Qed.

Lemma cancel_absent id s :
  scheduledNotifications s !! id = None → cancelScheduledNotification id s = s.
Proof. intros H. unfold cancelScheduledNotification. by rewrite H. Qed.

Lemma cancel_present id n s :
  scheduledNotifications s !! id = Some n →
  scheduledNotifications (cancelScheduledNotification id s)
    = delete id (scheduledNotifications s)
  ∧ timers (cancelScheduledNotification id s) = delete (timeoutId n) (timers s)
  ∧ nextTimeoutId (cancelScheduledNotification id s) = nextTimeoutId s
  ∧ trace (cancelScheduledNotification id s)
    = trace s ++ [Console LevelLog (LogCancelled id)].
Proof. intros H. unfold cancelScheduledNotification. by rewrite H. Qed.

Lemma cancel_lookup id s :
  scheduledNotifications (cancelScheduledNotification id s) !! id = None.
Proof.
  destruct (scheduledNotifications s !! id) as [n|] eqn:E.
  - destruct (cancel_present _ _ _ E) as (-> & _). apply lookup_delete_eq.
  - by rewrite cancel_absent.
Qed.

Lemma cancel_next id s :
  nextTimeoutId (cancelScheduledNotification id s) = nextTimeoutId s.
Proof.
  destruct (scheduledNotifications s !! id) as [n|] eqn:E.
  - by destruct (cancel_present _ _ _ E) as (_ & _ & -> & _).
  - by rewrite cancel_absent.
Qed.

Lemma coherent_cancel id s :
  coherent s → coherent (cancelScheduledNotification id s).
Proof.
  intros Hc.
  destruct (scheduledNotifications s !! id) as [n|] eqn:E;
    [|by rewrite cancel_absent].
  unfold cancelScheduledNotification. rewrite E. apply coherent_emit.
  destruct (coh_entry s Hc _ _ E) as (cb0 & Hcb0 & Hid0 & _).
  split; cbn.
  - intros id' n' [Hne H]%lookup_delete_Some.
    destruct (coh_entry s Hc _ _ H) as (cb & Hcb & Hrest).
    exists cb. split; [|done].
    rewrite lookup_delete_ne; [done|].
    intros Heq. apply Hne. eapply entry_timeout_inj; eauto.
  - intros tid cb [Hne H]%lookup_delete_Some.
    destruct (coh_timer s Hc _ _ H) as (n' & Hn' & Htid).
    exists n'. split; [|done].
    rewrite lookup_delete_ne; [done|].
    intros Heq. rewrite <- Heq in Hn'. congruence.
  - intros tid Hle. rewrite lookup_delete_None. right. by apply (coh_fresh s Hc).
  - rewrite !map_size_delete_Some by eauto. by rewrite (coh_size s Hc).
Qed.

(** After a cancel no timeout is left for the id. *)
Lemma cancel_disarms id s :
  coherent s → ¬ armed_for (cancelScheduledNotification id s) id.
Proof.
  intros Hc (tid & cb & Ht & Hid).
  destruct (coh_timer _ (coherent_cancel id s Hc) _ _ Ht) as (n & Hn & _).
  rewrite Hid, cancel_lookup in Hn. done.
Qed.

(** Arming a timeout for an id that has no entry, and recording it. *)
Lemma coherent_arm id t b st d s :
  coherent s →
  scheduledNotifications s !! id = None →
  coherent
    (store_set id {| timeoutId := nextTimeoutId s; title := t; body := b;
                     scheduledTime := st |}
       (snd (setTimeout {| cb_title := t; cb_body := b; cb_id := id;
                           timer_delay := d |} s))).
Proof.
  intros Hc Hnone.
  assert (Hfresh : timers s !! nextTimeoutId s = None)
    by (apply (coh_fresh s Hc); lia).
  split; cbn.
  - intros id' n' [[<- <-]|[Hne H]]%lookup_insert_Some; cbn.
    + rewrite lookup_insert_eq. eauto.
    + destruct (coh_entry s Hc _ _ H) as (cb & Hcb & Hrest).
      exists cb. split; [|done].
      rewrite lookup_insert_ne; [done|]. intros Heq. congruence.
  - intros tid cb [[<- <-]|[Hne H]]%lookup_insert_Some; cbn.
    + rewrite lookup_insert_eq. eauto.
    + destruct (coh_timer s Hc _ _ H) as (n' & Hn' & Htid).
      exists n'. split; [|done].
      rewrite lookup_insert_ne; [done|]. intros Heq. congruence.
  - intros tid Hle. rewrite lookup_insert_ne by lia.
    apply (coh_fresh s Hc). lia.
  - rewrite !map_size_insert_None by done. by rewrite (coh_size s Hc).
Qed.

Lemma coherent_schedule id t b st now s :
  coherent s → coherent (scheduleNotification id t b st now s).
Proof.
  intros Hc. unfold scheduleNotification.
  pose proof (coherent_cancel id s Hc) as Hc'.
  pose proof (cancel_lookup id s) as Hnone.
  set (s1 := cancelScheduledNotification id s) in *.
  destruct (num_le _ 0).
  { apply coherent_showNotification. by do 4 apply coherent_emit. }
  destruct (num_gt _ MAX_TIMEOUT).
  { by do 4 apply coherent_emit. }
  cbn. apply coherent_emit.
  destruct (coherent_arm id t b st (default 0 (delay_of st now)) s1 Hc' Hnone)
    as [H1 H2 H3 H4].
  split; cbn in *; auto.
Qed.

Lemma coherent_fire tid s : coherent s → coherent (fire tid s).
Proof.
  intros Hc. unfold fire.
  destruct (timers s !! tid) as [cb|] eqn:E; [|done].
  destruct (coh_timer s Hc _ _ E) as (n & Hn & Htid).
  split; cbn.
  - intros id' n' [Hne H]%lookup_delete_Some.
    destruct (coh_entry s Hc _ _ H) as (cb' & Hcb' & Hrest).
    exists cb'. split; [|done].
    rewrite lookup_delete_ne; [done|].
    intros Heq. apply Hne. subst tid. eapply entry_timeout_inj; eauto.
  - intros tid' cb' [Hne H]%lookup_delete_Some.
    destruct (coh_timer s Hc _ _ H) as (n' & Hn' & Htid').
    exists n'. split; [|done].
    rewrite lookup_delete_ne; [done|].
    intros Heq. rewrite <- Heq in Hn'. congruence.
  - intros tid' Hle. rewrite lookup_delete_None. right. by apply (coh_fresh s Hc).
  - rewrite !map_size_delete_Some by eauto. by rewrite (coh_size s Hc).
Qed.

Create HintDb coherence.
#[local] Hint Resolve coherent_schedule coherent_cancel coherent_fire
  coherent_showNotification : coherence.
#[local] Hint Extern 2 (coherent (emit _ _)) => apply coherent_emit : coherence.

Lemma coherent_onmessage m now s : coherent s → coherent (onmessage m now s).
Proof.
  intros Hc. unfold onmessage.
  apply (proj1 (coherent_emit (Console LevelLog LogMessageReceived) s)) in Hc.
  destruct m as [| |[]| |]; auto with coherence.
Qed.
#[local] Hint Resolve coherent_onmessage : coherence.

Lemma coherent_step s e : coherent s → coherent (step s e).
Proof. destruct e; cbn; auto with coherence. Qed.

Lemma coherent_run es s : coherent s → coherent (run es s).
Proof.
  revert s. induction es as [|e es IH]; intros s Hc; cbn; [done|].
  apply IH. by apply coherent_step.
Qed.

(** In a coherent state the ids of the store are the ids of the armed
    timeouts. *)
Lemma coherent_armed s id :
  coherent s → (is_Some (scheduledNotifications s !! id) ↔ armed_for s id).
Proof.
  intros Hc. split.
  - intros [n Hn]. destruct (coh_entry s Hc _ _ Hn) as (cb & Hcb & Hid & _).
    by exists (timeoutId n), cb.
  - intros (tid & cb & Hcb & <-).
    destruct (coh_timer s Hc _ _ Hcb) as (n & Hn & _). eauto.
Qed.

Lemma cancel_store id s :
  scheduledNotifications (cancelScheduledNotification id s)
  = delete id (scheduledNotifications s).
Proof.
  destruct (scheduledNotifications s !! id) as [n|] eqn:E.
  - by destruct (cancel_present _ _ _ E) as (-> & _).
  - rewrite cancel_absent by done. by rewrite delete_id.
Qed.

Lemma cancel_timers_subseteq id s :
  timers (cancelScheduledNotification id s) ⊆ timers s.
Proof.
  destruct (scheduledNotifications s !! id) as [n|] eqn:E.
  - destruct (cancel_present _ _ _ E) as (_ & -> & _). apply delete_subseteq.
  - by rewrite cancel_absent.
Qed.

Lemma shown_emit_console l line s :
  shown (emit (Console l line) s) = shown s.
Proof. unfold shown. cbn. rewrite omap_app. cbn. by rewrite app_nil_r. Qed.

Lemma shown_cancel id s : shown (cancelScheduledNotification id s) = shown s.
Proof.
  unfold cancelScheduledNotification.
  destruct (scheduledNotifications s !! id); [|done].
  by rewrite shown_emit_console.
Qed.

Lemma shown_showNotification t b tag s :
  shown (showNotification t b tag s)
  = shown s ++ [(t, {| opt_body := b; opt_tag := js_or tag (JsString DEFAULT_TAG) |})].
Proof.
  unfold showNotification, shown. cbn. rewrite !omap_app. cbn.
  by rewrite app_nil_r.
Qed.

(** The three ways out of [scheduleNotification]. *)
Lemma schedule_past id t b st now s :
  num_le (delay_of st now) 0 = true →
  let s' := scheduleNotification id t b st now s in
  scheduledNotifications s' = delete id (scheduledNotifications s)
  ∧ timers s' = timers (cancelScheduledNotification id s)
  ∧ nextTimeoutId s' = nextTimeoutId s
  ∧ shown s' = shown s ++ [(t, {| opt_body := b;
                                  opt_tag := js_or (JsString id) (JsString DEFAULT_TAG) |})].
Proof.
  intros H. cbv zeta. unfold scheduleNotification. rewrite H.
  split; [cbn; apply cancel_store|].
  split; [done|]. split; [cbn; apply cancel_next|].
  rewrite shown_showNotification, !shown_emit_console. by rewrite shown_cancel.
Qed.

Lemma schedule_too_far id t b st now s :
  num_le (delay_of st now) 0 = false →
  num_gt (delay_of st now) MAX_TIMEOUT = true →
  let s' := scheduleNotification id t b st now s in
  scheduledNotifications s' = delete id (scheduledNotifications s)
  ∧ timers s' = timers (cancelScheduledNotification id s)
  ∧ nextTimeoutId s' = nextTimeoutId s
  ∧ shown s' = shown s
  ∧ last (trace s') = Some (Console LevelWarn LogDelayTooLong).
Proof.
  intros H1 H2. cbv zeta. unfold scheduleNotification. rewrite H1, H2.
  split; [cbn; apply cancel_store|].
  split; [done|]. split; [cbn; apply cancel_next|]. split.
  - rewrite !shown_emit_console. by rewrite shown_cancel.
  - cbn. by rewrite last_snoc.
Qed.

Lemma schedule_arms id t b st now s :
  num_le (delay_of st now) 0 = false →
  num_gt (delay_of st now) MAX_TIMEOUT = false →
  let s' := scheduleNotification id t b st now s in
  scheduledNotifications s'
  = <[id := {| timeoutId := nextTimeoutId s; title := t; body := b;
               scheduledTime := st |}]> (delete id (scheduledNotifications s))
  ∧ timers s'
    = <[nextTimeoutId s := {| cb_title := t; cb_body := b; cb_id := id;
                              timer_delay := default 0 (delay_of st now) |}]>
        (timers (cancelScheduledNotification id s))
  ∧ nextTimeoutId s' = S (nextTimeoutId s)
  ∧ shown s' = shown s.
Proof.
  intros H1 H2. cbv zeta. unfold scheduleNotification. rewrite H1, H2.
  split; [cbn; by rewrite cancel_store, cancel_next|].
  split; [cbn; by rewrite cancel_next|].
  split; [cbn; by rewrite cancel_next|].
  cbv beta iota zeta delta [setTimeout]. rewrite shown_emit_console.
  unfold shown at 1. cbn. rewrite !omap_app. cbn. rewrite !app_nil_r.
  apply shown_cancel.
Qed.

(** C2. After any finite sequence of messages (schedule, cancel, query,
    take-over, unknown) and timeouts that fire, an id has an entry in the
    store exactly when a timeout is armed for it, and the store has as
    many entries as there are armed timeouts. *)
Theorem store_matches_armed_timeouts (es : list Event) :
  (∀ id, is_Some (scheduledNotifications (run es initial) !! id)
         ↔ armed_for (run es initial) id)
  ∧ size (scheduledNotifications (run es initial)) = size (timers (run es initial)).
Proof.
  pose proof (coherent_run es initial coherent_initial) as Hc.
  split.
  - intros id. by apply coherent_armed.
  - apply (coh_size _ Hc).
Qed.

(** C3, as amended.  Two schedule calls with one id, the second with a
    delay that is positive and at most 2147483647 ms: the store holds for
    the id one entry, with the second call's title, body and time, its
    timeout is armed with the second call's delay, and no other timeout is
    armed for the id. *)
Theorem reschedule_replaces_entry
    (es : list Event) (id t1 b1 : string) (st1 : option Z) (now1 : Z)
    (t2 b2 : string) (ms2 now2 : Z) :
  0 < ms2 - now2 <= MAX_TIMEOUT →
  let s1 := scheduleNotification id t1 b1 st1 now1 (run es initial) in
  let s2 := scheduleNotification id t2 b2 (Some ms2) now2 s1 in
  ∃ tid,
    scheduledNotifications s2 !! id
    = Some {| timeoutId := tid; title := t2; body := b2; scheduledTime := Some ms2 |}
    ∧ timers s2 !! tid
      = Some {| cb_title := t2; cb_body := b2; cb_id := id; timer_delay := ms2 - now2 |}
    ∧ (∀ tid' cb, timers s2 !! tid' = Some cb → cb_id cb = id → tid' = tid).
Proof.
  intros Hd s1 s2.
  assert (Hc1 : coherent s1)
    by (apply coherent_schedule, coherent_run, coherent_initial).
  assert (Hc2 : coherent s2) by by apply coherent_schedule.
  destruct (schedule_arms id t2 b2 (Some ms2) now2 s1) as (Hs & Ht & _).
  { cbn. lia. }
  { cbn. unfold MAX_TIMEOUT in *. lia. }
  fold s2 in Hs, Ht.
  exists (nextTimeoutId s1). split; [|split].
  - rewrite Hs. apply lookup_insert_eq.
  - rewrite Ht. apply lookup_insert_eq.
  - intros tid' cb Hcb Hid.
    destruct (coh_timer s2 Hc2 _ _ Hcb) as (n & Hn & <-).
    rewrite Hid, Hs, lookup_insert_eq in Hn. by inversion Hn.
Qed.

Lemma reschedule_replaces_entry_witness :
  0 < 6000 - 1000 <= MAX_TIMEOUT
  ∧ ∃ tid,
      scheduledNotifications
        (scheduleNotification "x" "Feed cat" "now" (Some 6000) 1000
           (scheduleNotification "x" "Walk dog" "" (Some 5000) 0 (run [] initial)))
        !! "x"
      = Some {| timeoutId := tid; title := "Feed cat"; body := "now";
                scheduledTime := Some 6000 |}
      ∧ timers
          (scheduleNotification "x" "Feed cat" "now" (Some 6000) 1000
             (scheduleNotification "x" "Walk dog" "" (Some 5000) 0 (run [] initial)))
          !! tid
        = Some {| cb_title := "Feed cat"; cb_body := "now"; cb_id := "x";
                  timer_delay := 6000 - 1000 |}
      ∧ (∀ tid' cb,
           timers
             (scheduleNotification "x" "Feed cat" "now" (Some 6000) 1000
                (scheduleNotification "x" "Walk dog" "" (Some 5000) 0 (run [] initial)))
             !! tid' = Some cb →
           cb_id cb = "x" → tid' = tid).
Proof.
  assert (H : 0 < 6000 - 1000 <= MAX_TIMEOUT) by (unfold MAX_TIMEOUT; lia).
  split; [exact H|].
  exact (reschedule_replaces_entry [] "x" "Walk dog" "" (Some 5000) 0
           "Feed cat" "now" 6000 1000 H).
Defined.

(** C3 as the spec states it fails when the second call's time has
    passed: the first entry is cancelled, the alert is shown at once, and
    the id is left with no entry. *)
Lemma reschedule_in_the_past_leaves_no_entry :
  let s1 := scheduleNotification "x" "Walk dog" "" (Some 5000) 0 initial in
  let s2 := scheduleNotification "x" "Walk dog" "again" (Some 0) 1000 s1 in
  is_Some (scheduledNotifications s1 !! "x")
  ∧ scheduledNotifications s2 !! "x" = None
  ∧ size (scheduledNotifications s2) = 0%nat.
Proof. vm_compute. split; [eauto|done]. Qed.

(** C8. A schedule call whose delay exceeds 2147483647 ms, for an id that
    has a live entry: the entry's timeout was armed, the call disarms it
    and removes the entry, arms nothing and shows nothing; the id is left
    with no entry and no timeout. *)
Theorem too_far_reschedule_loses_entry
    (es : list Event) (id : string) (n : Scheduled) (t b : string) (ms now : Z) :
  scheduledNotifications (run es initial) !! id = Some n →
  MAX_TIMEOUT < ms - now →
  let s := run es initial in
  let s' := scheduleNotification id t b (Some ms) now s in
  is_Some (timers s !! timeoutId n)
  ∧ scheduledNotifications s' !! id = None
  ∧ timers s' = delete (timeoutId n) (timers s)
  ∧ ¬ armed_for s' id
  ∧ nextTimeoutId s' = nextTimeoutId s
  ∧ shown s' = shown s.
Proof.
  intros Hn Hd s s'. subst s. set (s := run es initial) in *.
  assert (Hc : coherent s) by apply coherent_run, coherent_initial.
  assert (Hc' : coherent s') by by apply coherent_schedule.
  destruct (schedule_too_far id t b (Some ms) now s) as (Hs & Ht & Hnext & Hsh & _).
  { cbn. unfold MAX_TIMEOUT in *. lia. }
  { cbn. lia. }
  fold s' in Hs, Ht, Hnext, Hsh.
  destruct (cancel_present _ _ _ Hn) as (_ & Ht' & _).
  destruct (coh_entry s Hc _ _ Hn) as (cb & Hcb & _).
  split; [eauto|]. split; [rewrite Hs; apply lookup_delete_eq|].
  split; [by rewrite Ht, Ht'|]. split; [|done].
  intros Ha. apply (coherent_armed s' id Hc') in Ha as [n' Hn'].
  rewrite Hs, lookup_delete_eq in Hn'. done.
Qed.

Lemma too_far_reschedule_loses_entry_witness :
  let es := [Receive (SCHEDULE_NOTIFICATION "x" "Walk dog" "" (Some 5000)) 0] in
  let n := {| timeoutId := 1; title := "Walk dog"; body := "";
              scheduledTime := Some 5000 |} in
  let s := run es initial in
  let s' := scheduleNotification "x" "Walk dog" "" (Some 3000000000) 0 s in
  is_Some (timers s !! timeoutId n)
  ∧ scheduledNotifications s' !! "x" = None
  ∧ timers s' = delete (timeoutId n) (timers s)
  ∧ ¬ armed_for s' "x"
  ∧ nextTimeoutId s' = nextTimeoutId s
  ∧ shown s' = shown s.
Proof.
  intros es n.
  refine (too_far_reschedule_loses_entry es "x" n "Walk dog" "" 3000000000 0 _ _).
  - vm_compute. reflexivity.
  - unfold MAX_TIMEOUT. lia.
Defined.

(** C10. When a timeout fires, the alert's tag is the item's id, unless
    the id is the empty string: then it is the default tag
    "activity-reminder".  The notifier does so for every tag it is given,
    replacing each falsy one by the default, and the immediate path of
    [scheduleNotification] shows the alert the same way. *)
Theorem fired_alert_tag (s : State) (tid : nat) (cb : Timer) :
  timers s !! tid = Some cb →
  shown (fire tid s)
  = shown s ++ [(cb_title cb,
                 {| opt_body := cb_body cb;
                    opt_tag := JsString (if String.eqb (cb_id cb) ""
                                         then "activity-reminder" else cb_id cb) |})]
  ∧ (∀ t b tag s0,
       shown (showNotification t b tag s0)
       = shown s0 ++ [(t, {| opt_body := b;
                             opt_tag := if truthy tag then tag
                                        else JsString "activity-reminder" |})])
  ∧ (∀ id t b st now s0,
       num_le (delay_of st now) 0 = true →
       shown (scheduleNotification id t b st now s0)
       = shown s0 ++ [(t, {| opt_body := b;
                             opt_tag := JsString (if String.eqb id ""
                                                  then "activity-reminder" else id) |})]).
Proof.
  assert (Htag : ∀ id, js_or (JsString id) (JsString DEFAULT_TAG)
                       = JsString (if String.eqb id "" then "activity-reminder" else id)).
  { intros id. unfold js_or. cbn. by destruct (String.eqb id ""). }
  intros Hcb. split; [|split].
  - unfold fire. rewrite Hcb.
    transitivity (shown (showNotification (cb_title cb) (cb_body cb) (JsString (cb_id cb))
                           (emit (Console LevelLog (LogTriggering (cb_title cb)))
                              {| scheduledNotifications := scheduledNotifications s;
                                 timers := delete tid (timers s);
                                 nextTimeoutId := nextTimeoutId s;
                                 trace := trace s |}))); [done|].
    rewrite shown_showNotification, shown_emit_console, Htag. done.
  - intros. by rewrite shown_showNotification.
  - intros id t b st now s0 H.
    destruct (schedule_past id t b st now s0 H) as (_ & _ & _ & ->).
    by rewrite Htag.
Qed.

Lemma fired_alert_tag_witness :
  let s := run [Receive (SCHEDULE_NOTIFICATION "" "Walk dog" "soon" (Some 5000)) 0] initial in
  shown (fire 1 s)
  = shown s ++ [("Walk dog", {| opt_body := "soon"; opt_tag := JsString "activity-reminder" |})].
Proof.
  intros s.
  refine (proj1 (fired_alert_tag s 1 {| cb_title := "Walk dog"; cb_body := "soon";
                                        cb_id := ""; timer_delay := 5000 |} _)).
  vm_compute. reflexivity.
Defined.

End SchedulerFacts.

(** * Properties of the [Date] model *)

Module DateFacts.

Import JsDate.
Local Open Scope Z_scope.

(** The fields of a local time add up to it. *)
Lemma time_fields (l : Z) :
  MakeDate (Day l)
    (MakeTime (HourFromTime l) (MinFromTime l) (SecFromTime l) (msFromTime l)) = l.
Proof.
  unfold MakeDate, MakeTime, Day, HourFromTime, MinFromTime, SecFromTime, msFromTime,
    msPerDay, msPerHour, msPerMinute, msPerSecond.
  replace (l / 86400000) with (l / 1000 / 60 / 60 / 24)
    by (rewrite !Z.div_div by lia; reflexivity).
  replace (l / 3600000) with (l / 1000 / 60 / 60)
    by (rewrite !Z.div_div by lia; reflexivity).
  replace (l / 60000) with (l / 1000 / 60)
    by (rewrite !Z.div_div by lia; reflexivity).
  pose proof (Z.div_mod l 1000 ltac:(lia)).
  pose proof (Z.div_mod (l / 1000) 60 ltac:(lia)).
  pose proof (Z.div_mod (l / 1000 / 60) 60 ltac:(lia)).
  pose proof (Z.div_mod (l / 1000 / 60 / 60) 24 ltac:(lia)).
  lia.
Qed.

(** [setMinutes(getMinutes() + 1)] moves the local time one minute on. *)
Lemma setMinutes_next (tz : TimeZone) (t : Z) :
  setMinutes tz (getMinutes tz t + 1) t = UTC tz (LocalTime tz t + msPerMinute).
Proof.
  unfold setMinutes, getMinutes. f_equal.
  pose proof (time_fields (LocalTime tz t)) as H.
  unfold MakeDate, MakeTime in *. lia.
Qed.

Lemma next_day (l : Z) : MakeDate (Day l + 1) (TimeWithinDay l) = l + msPerDay.
Proof.
  unfold MakeDate, Day, TimeWithinDay, msPerDay.
  pose proof (Z.div_mod l 86400000 ltac:(lia)). lia.
Qed.

Lemma setDateNextDay_local (tz : TimeZone) (t : Z) :
  setDateNextDay tz t = UTC tz (LocalTime tz t + msPerDay).
Proof. unfold setDateNextDay. by rewrite next_day. Qed.

(** The clock fields of a local time made of a day and [h:m:0.000]. *)
Lemma MakeDate_fields (D hour min : Z) :
  0 <= hour <= 23 → 0 <= min <= 59 →
  let l := MakeDate D (MakeTime hour min 0 0) in
  HourFromTime l = hour ∧ MinFromTime l = min ∧ SecFromTime l = 0 ∧ msFromTime l = 0.
Proof.
  intros Hh Hm l. subst l.
  unfold MakeDate, MakeTime, HourFromTime, MinFromTime, SecFromTime, msFromTime,
    msPerDay, msPerHour, msPerMinute, msPerSecond.
  replace (D * 86400000 + (hour * 3600000 + min * 60000 + 0 * 1000 + 0))
    with (D * 86400000 + hour * 3600000 + min * 60000) by lia.
  repeat split.
  - replace (D * 86400000 + hour * 3600000 + min * 60000)
      with (min * 60000 + (D * 24 + hour) * 3600000) by lia.
    rewrite Z.div_add by lia. rewrite (Z.div_small (min * 60000)) by lia.
    replace (0 + (D * 24 + hour)) with (hour + D * 24) by lia.
    rewrite Z.mod_add by lia. apply Z.mod_small. lia.
  - replace (D * 86400000 + hour * 3600000 + min * 60000)
      with (0 + (D * 1440 + hour * 60 + min) * 60000) by lia.
    rewrite Z.div_add by lia. rewrite Z.div_0_l by lia.
    replace (0 + (D * 1440 + hour * 60 + min)) with (min + (D * 24 + hour) * 60) by lia.
    rewrite Z.mod_add by lia. apply Z.mod_small. lia.
  - replace (D * 86400000 + hour * 3600000 + min * 60000)
      with (0 + (D * 86400 + hour * 3600 + min * 60) * 1000) by lia.
    rewrite Z.div_add by lia. rewrite Z.div_0_l by lia.
    replace (0 + (D * 86400 + hour * 3600 + min * 60))
      with (0 + (D * 1440 + hour * 60 + min) * 60) by lia.
    rewrite Z.mod_add by lia. reflexivity.
  - replace (D * 86400000 + hour * 3600000 + min * 60000)
      with (0 + (D * 86400 + hour * 3600 + min * 60) * 1000) by lia.
    rewrite Z.mod_add by lia. reflexivity.
Qed.

Lemma MakeDate_next_day (D time : Z) :
  MakeDate D time + msPerDay = MakeDate (D + 1) time.
Proof. unfold MakeDate. lia. Qed.

(** A local time that is read back with the offset in force at the instant
    it denotes is the local time of that instant. *)
Lemma local_round_trip (tz : TimeZone) (l : Z) :
  tza_utc tz (UTC tz l) = tza_local tz l → LocalTime tz (UTC tz l) = l.
Proof. intros H. unfold LocalTime. rewrite H. unfold UTC. lia. Qed.

(** In a zone with a constant offset the local-time methods are plain
    arithmetic on the time value. *)
Section FixedZone.

Variable offset : Z.
Let tz : TimeZone := fixed_zone offset.

Lemma LocalTime_fixed (t : Z) : LocalTime tz t = t + offset.
Proof. reflexivity. Qed.

Lemma UTC_fixed (l : Z) : UTC tz l = l - offset.
Proof. reflexivity. Qed.

Lemma setMinutes_next_fixed (t : Z) :
  setMinutes tz (getMinutes tz t + 1) t = t + 60000.
Proof.
  rewrite setMinutes_next, UTC_fixed, LocalTime_fixed. unfold msPerMinute. lia.
Qed.

Lemma setDateNextDay_fixed (t : Z) : setDateNextDay tz t = t + msPerDay.
Proof. rewrite setDateNextDay_local, UTC_fixed, LocalTime_fixed. lia. Qed.

Lemma setHours_fixed (hour min t : Z) :
  setHours tz hour min 0 0 t
  = (t + offset) / msPerDay * msPerDay + hour * msPerHour + min * msPerMinute - offset.
Proof.
  unfold setHours. rewrite UTC_fixed, LocalTime_fixed.
  unfold MakeDate, MakeTime, Day. lia.
Qed.

(** The clock fields of a time set by [setHours(h, m, 0, 0)]. *)
Lemma setHours_fields (hour min t : Z) :
  0 <= hour <= 23 → 0 <= min <= 59 →
  let d := setHours tz hour min 0 0 t in
  getHours tz d = hour
  ∧ getMinutes tz d = min
  ∧ getSeconds tz d = 0
  ∧ getMilliseconds tz d = 0.
Proof.
  intros Hh Hm d. subst d. rewrite setHours_fixed.
  unfold getHours, getMinutes, getSeconds, getMilliseconds.
  rewrite LocalTime_fixed.
  set (D := (t + offset) / msPerDay).
  replace (D * msPerDay + hour * msPerHour + min * msPerMinute - offset + offset)
    with (D * msPerDay + hour * msPerHour + min * msPerMinute) by lia.
  unfold HourFromTime, MinFromTime, SecFromTime, msFromTime,
    msPerDay, msPerHour, msPerMinute, msPerSecond.
  repeat split.
  - replace (D * 86400000 + hour * 3600000 + min * 60000)
      with (min * 60000 + (D * 24 + hour) * 3600000) by lia.
    rewrite Z.div_add by lia. rewrite (Z.div_small (min * 60000)) by lia.
    replace (0 + (D * 24 + hour)) with (hour + D * 24) by lia.
    rewrite Z.mod_add by lia. apply Z.mod_small. lia.
  - replace (D * 86400000 + hour * 3600000 + min * 60000)
      with (0 + (D * 1440 + hour * 60 + min) * 60000) by lia.
    rewrite Z.div_add by lia. rewrite Z.div_0_l by lia.
    replace (0 + (D * 1440 + hour * 60 + min)) with (min + (D * 24 + hour) * 60) by lia.
    rewrite Z.mod_add by lia. apply Z.mod_small. lia.
  - replace (D * 86400000 + hour * 3600000 + min * 60000)
      with (0 + (D * 86400 + hour * 3600 + min * 60) * 1000) by lia.
    rewrite Z.div_add by lia. rewrite Z.div_0_l by lia.
    replace (0 + (D * 86400 + hour * 3600 + min * 60))
      with (0 + (D * 1440 + hour * 60 + min) * 60) by lia.
    rewrite Z.mod_add by lia. reflexivity.
  - replace (D * 86400000 + hour * 3600000 + min * 60000)
      with (0 + (D * 86400 + hour * 3600 + min * 60) * 1000) by lia.
    rewrite Z.mod_add by lia. reflexivity.
Qed.

(** A day later the clock reads the same. *)
Lemma fields_next_day_fixed (t : Z) :
  getHours tz (t + msPerDay) = getHours tz t
  ∧ getMinutes tz (t + msPerDay) = getMinutes tz t
  ∧ getSeconds tz (t + msPerDay) = getSeconds tz t
  ∧ getMilliseconds tz (t + msPerDay) = getMilliseconds tz t.
Proof.
  unfold getHours, getMinutes, getSeconds, getMilliseconds.
  rewrite !LocalTime_fixed.
  unfold HourFromTime, MinFromTime, SecFromTime, msFromTime,
    msPerDay, msPerHour, msPerMinute, msPerSecond.
  set (l := t + offset).
  repeat split.
  - replace (t + 86400000 + offset) with (l + 24 * 3600000) by lia.
    rewrite Z.div_add by lia. replace (l / 3600000 + 24) with (l / 3600000 + 1 * 24) by lia.
    by rewrite Z.mod_add by lia.
  - replace (t + 86400000 + offset) with (l + 1440 * 60000) by lia.
    rewrite Z.div_add by lia. replace (l / 60000 + 1440) with (l / 60000 + 24 * 60) by lia.
    by rewrite Z.mod_add by lia.
  - replace (t + 86400000 + offset) with (l + 86400 * 1000) by lia.
    rewrite Z.div_add by lia. replace (l / 1000 + 86400) with (l / 1000 + 1440 * 60) by lia.
    by rewrite Z.mod_add by lia.
  - replace (t + 86400000 + offset) with (l + 86400 * 1000) by lia.
    by rewrite Z.mod_add by lia.
Qed.

End FixedZone.

End DateFacts.

(** * Properties of [parseTimeToDate] *)

Module ParserFacts.

Import JsString JsDate TimeParser DateFacts.
Local Open Scope string_scope.
Local Open Scope Z_scope.

(** What [validate] lets through. *)
Lemma validate_Some hm hours minutes :
  validate hm = Some (hours, minutes) →
  hm = (Some hours, Some minutes) ∧ 0 <= hours <= 23 ∧ 0 <= minutes <= 59.
Proof.
  destruct hm as [[h|] [m|]]; cbn; try done.
  destruct (h <? 0) eqn:E1, (23 <? h) eqn:E2, (m <? 0) eqn:E3, (59 <? m) eqn:E4;
    cbn; try done.
  intros [= <- <-]. split; [done|lia].
Qed.

(** The two paths of [parseTimeToDate]. *)
Lemma parse_invalid v tz clock timeStr :
  validate (fields v (trim timeStr)) = None →
  parseTimeToDate v tz clock timeStr
  = {| date := UTC tz (LocalTime tz (read_fallback clock) + msPerMinute);
       console := only v (LevelError, InvalidTimeFormat (trim timeStr)) |}.
Proof. intros H. unfold parseTimeToDate. rewrite H. by rewrite setMinutes_next. Qed.

Lemma parse_valid v tz clock timeStr hours minutes :
  validate (fields v (trim timeStr)) = Some (hours, minutes) →
  parseTimeToDate v tz clock timeStr
  = let t := setHours tz hours minutes 0 0 (read_scheduledTime clock) in
    if t <=? read_now clock
    then {| date := setDateNextDay tz t; console := only v (LevelLog, SchedulingForTomorrow) |}
    else {| date := t; console := [] |}.
Proof. intros H. unfold parseTimeToDate. by rewrite H. Qed.

(** Where the offset of the zone is constant and the clock does not run
    backwards between the reads of one call, the result is later than
    [now]. *)
Lemma parse_future_fixed_zone v offset clock timeStr :
  read_now clock <= read_scheduledTime clock →
  read_now clock <= read_fallback clock →
  read_now clock < date (parseTimeToDate v (fixed_zone offset) clock timeStr).
Proof.
  intros H1 H2.
  destruct (validate (fields v (trim timeStr))) as [[h m]|] eqn:E.
  - rewrite (parse_valid _ _ _ _ _ _ E). cbv zeta.
    apply validate_Some in E as (_ & Hh & Hm).
    rewrite setHours_fixed.
    set (l := read_scheduledTime clock + offset).
    pose proof (Z.div_mod l msPerDay ltac:(done)) as Hdm.
    pose proof (Z.mod_pos_bound l msPerDay ltac:(done)) as Hb.
    destruct (_ <=? _) eqn:Ecmp; cbn [date].
    + rewrite setDateNextDay_fixed. unfold msPerDay, msPerHour, msPerMinute in *. lia.
    + apply Z.leb_gt in Ecmp. lia.
  - rewrite (parse_invalid _ _ _ _ E). cbn [date].
    unfold UTC, LocalTime, msPerMinute. cbn. lia.
Qed.

(** "7x:30" passes the validation, as 7 hours 30 minutes. *)
Lemma lenient_fields (v : Variant) :
  validate (fields v (trim "7x:30")) = Some (7, 30).
Proof. destruct v; vm_compute; reflexivity. Qed.

(** What the parser returns for it reads 07:30:00.000 on the clock of the
    host, where the zone reads that local time, of today and of tomorrow,
    back with the offset in force at the instant it denotes. *)
Lemma lenient_reads_0730 (v : Variant) (tz : TimeZone) (clock : Clock) :
  let l := MakeDate (Day (LocalTime tz (read_scheduledTime clock))) (MakeTime 7 30 0 0) in
  tza_utc tz (UTC tz l) = tza_local tz l →
  tza_utc tz (UTC tz (l + msPerDay)) = tza_local tz (l + msPerDay) →
  let d := date (parseTimeToDate v tz clock "7x:30") in
  getHours tz d = 7 ∧ getMinutes tz d = 30
  ∧ getSeconds tz d = 0 ∧ getMilliseconds tz d = 0.
Proof.
  intros l H0 H1 d. subst d.
  rewrite (parse_valid _ _ _ _ _ _ (lenient_fields v)). cbv zeta.
  change (setHours tz 7 30 0 0 (read_scheduledTime clock)) with (UTC tz l).
  unfold getHours, getMinutes, getSeconds, getMilliseconds.
  destruct (UTC tz l <=? read_now clock); cbn [date].
  - rewrite setDateNextDay_local, (local_round_trip tz l H0),
      (local_round_trip tz (l + msPerDay) H1).
    subst l. rewrite MakeDate_next_day. by apply MakeDate_fields.
  - rewrite (local_round_trip tz l H0). subst l. by apply MakeDate_fields.
Qed.

(** C9. The validation does not check the shape of the string.  "7x:30" is
    neither [H] nor [H:MM], yet it passes validation as 7 hours 30 minutes,
    read from the leading digits of each part.  The parser does not take
    the fallback and writes no error line: it returns today's or
    tomorrow's date at that time of day, which reads 07:30:00.000 on the
    clock of the host, in every zone with a constant offset and in any
    zone that reads that local time back with the offset in force at the
    instant it denotes. *)
Theorem validation_is_lenient (v : Variant) (tz : TimeZone) (clock : Clock) :
  shape_H_or_HMM "7x:30" = false
  ∧ validate (fields v (trim "7x:30")) = Some (7, 30)
  ∧ parseTimeToDate v tz clock "7x:30"
    = (let t := setHours tz 7 30 0 0 (read_scheduledTime clock) in
       if t <=? read_now clock
       then {| date := setDateNextDay tz t;
               console := only v (LevelLog, SchedulingForTomorrow) |}
       else {| date := t; console := [] |})
  ∧ (∀ s, (LevelError, InvalidTimeFormat s) ∉ console (parseTimeToDate v tz clock "7x:30"))
  ∧ (let l := MakeDate (Day (LocalTime tz (read_scheduledTime clock)))
                (MakeTime 7 30 0 0) in
     tza_utc tz (UTC tz l) = tza_local tz l →
     tza_utc tz (UTC tz (l + msPerDay)) = tza_local tz (l + msPerDay) →
     let d := date (parseTimeToDate v tz clock "7x:30") in
     getHours tz d = 7 ∧ getMinutes tz d = 30
     ∧ getSeconds tz d = 0 ∧ getMilliseconds tz d = 0)
  ∧ (∀ offset,
       let d := date (parseTimeToDate v (fixed_zone offset) clock "7x:30") in
       getHours (fixed_zone offset) d = 7 ∧ getMinutes (fixed_zone offset) d = 30
       ∧ getSeconds (fixed_zone offset) d = 0
       ∧ getMilliseconds (fixed_zone offset) d = 0).
Proof.
  pose proof (lenient_fields v) as H.
  split; [vm_compute; reflexivity|]. split; [exact H|].
  split; [by apply parse_valid|]. split; [|split].
  - intros s. rewrite (parse_valid _ _ _ _ _ _ H). cbv zeta.
    destruct (_ <=? _); cbn [console]; [|apply not_elem_of_nil].
    destruct v; cbn; [|apply not_elem_of_nil].
    intros [Heq|Hin%elem_of_nil]%elem_of_cons; [discriminate Heq|done].
  - apply lenient_reads_0730.
  - intros offset. by apply lenient_reads_0730.
Qed.

Lemma validation_is_lenient_witness :
  let d := date (parseTimeToDate Quiet new_york_2017 (at_instant 1500000000000) "7x:30") in
  getHours new_york_2017 d = 7 ∧ getMinutes new_york_2017 d = 30
  ∧ getSeconds new_york_2017 d = 0 ∧ getMilliseconds new_york_2017 d = 0.
Proof.
  refine (proj1 (proj2 (proj2 (proj2 (proj2
            (validation_is_lenient Quiet new_york_2017 (at_instant 1500000000000))))))
            _ _);
    vm_compute; reflexivity.
Defined.

(** C6, as amended.  An input that fails validation, "25:99" for one,
    makes the parser return, without raising anything, a fallback date.
    The fallback is one minute (60000 ms) after the instant the fallback
    reads from the clock exactly when the zone reads the local time one
    minute on back with the offset in force at that instant: always where
    the offset of the zone is constant, and elsewhere at every instant
    that is not next to a change of the clocks.  On every host the
    logging file writes one [console.error] line, 'Invalid time format:'
    with the trimmed input, and the other file writes nothing. *)
Theorem invalid_time_falls_back
    (v : Variant) (tz : TimeZone) (clock : Clock) (timeStr : string) :
  validate (fields v (trim timeStr)) = None →
  let r := parseTimeToDate v tz clock timeStr in
  let now := read_fallback clock in
  (date r = now + 60000
   ↔ tza_local tz (LocalTime tz now + 60000) = tza_utc tz now)
  ∧ (∀ offset, date (parseTimeToDate v (fixed_zone offset) clock timeStr) = now + 60000)
  ∧ console r = match v with
                | Verbose => [(LevelError, InvalidTimeFormat (trim timeStr))]
                | Quiet => []
                end
  ∧ validate (fields v (trim "25:99")) = None.
Proof.
  intros H r now. subst r now. rewrite (parse_invalid _ _ _ _ H). cbn [date console].
  split; [unfold UTC, LocalTime, msPerMinute; lia|].
  split.
  { intros offset. rewrite (parse_invalid _ _ _ _ H). cbn [date].
    unfold UTC, LocalTime, msPerMinute. cbn. lia. }
  split; [by destruct v|]. destruct v; vm_compute; reflexivity.
Qed.

Lemma invalid_time_falls_back_witness :
  validate (fields Verbose (trim "25:99")) = None
  ∧ date (parseTimeToDate Verbose new_york_2017 (at_instant 1500000000000) "25:99")
    = 1500000000000 + 60000
  ∧ date (parseTimeToDate Verbose (fixed_zone 0) (at_instant 1000) "25:99") = 1000 + 60000.
Proof.
  assert (H : validate (fields Verbose (trim "25:99")) = None) by (vm_compute; reflexivity).
  split; [exact H|]. split.
  - refine (proj2 (proj1 (invalid_time_falls_back Verbose new_york_2017
                            (at_instant 1500000000000) "25:99" H)) _).
    vm_compute. reflexivity.
  - exact (proj1 (proj2 (invalid_time_falls_back Verbose new_york_2017
                           (at_instant 1000) "25:99" H)) 0).
Defined.

(** C6 as the spec states it fails: for "25:99" the file without logging
    records no warning, or anything else, and the logging file writes its
    line with [console.error], not as a warning. *)
Lemma invalid_time_not_reported_as_warning :
  console (parseTimeToDate Quiet (fixed_zone 0) (at_instant 1000) "25:99") = []
  ∧ console (parseTimeToDate Verbose (fixed_zone 0) (at_instant 1000) "25:99")
    = [(LevelError, InvalidTimeFormat "25:99")].
Proof. split; vm_compute; reflexivity. Qed.

(** C5 at its failing input.  New York, 5 November 2017, 01:30 for the
    second time (06:30 UTC, half an hour after the clocks went back), and
    an input that fails validation: the fallback is set to 01:31 local
    time, which is read back as the first 01:31 (05:31 UTC), 59 minutes
    before [now]. *)
Theorem fallback_in_repeated_hour_is_past (v : Variant) :
  let now := transition_2017 + 30 * msPerMinute in
  let d := date (parseTimeToDate v new_york_2017 (at_instant now) "25:99") in
  d = now - 59 * msPerMinute ∧ d < now.
Proof. destruct v; vm_compute; split; reflexivity. Qed.

(** *** The 12-hour format *)

Ltac by_code_unit c H :=
  destruct c as [[] [] [] [] [] [] [] []];
  try (vm_compute in H; discriminate H); vm_compute; try reflexivity.

Lemma inert_lower c : inert c = true → lower c = c.
Proof. intros H. by_code_unit c H. Qed.

Lemma inert_not_marker c d : inert c = true → meridiem_at c d = false.
Proof. intros H. by_code_unit c H. Qed.

Lemma inert_not_letter c :
  inert c = true → "a"%char ≠ c ∧ "p"%char ≠ c ∧ "A"%char ≠ c ∧ "P"%char ≠ c.
Proof. intros H. by_code_unit c H; repeat split; discriminate. Qed.

Lemma plain_inert c : plain c = true → inert c = true.
Proof. intros H. unfold inert. by rewrite H. Qed.

Lemma plain_not_ws c : plain c = true → is_ws c = false.
Proof. intros H. by_code_unit c H. Qed.

Lemma all_plain_inert s : all_plain s = true → all_inert s = true.
Proof.
  induction s as [|c s IH]; cbn [all_plain all_inert]; [done|].
  intros [H1 H2]%andb_true_iff. by rewrite plain_inert, IH.
Qed.

Lemma all_inert_spaces n : all_inert (spaces n) = true.
Proof. induction n; cbn [spaces all_inert]; [done|]. by rewrite IHn. Qed.

Lemma append_nil (y : string) : EmptyString ++ y = y.
Proof. reflexivity. Qed.

Lemma append_cons c (x y : string) : String c x ++ y = String c (x ++ y).
Proof. reflexivity. Qed.

Lemma all_inert_app x y :
  all_inert x = true → all_inert y = true → all_inert (x ++ y) = true.
Proof.
  induction x as [|c x IH]; rewrite ?append_cons, ?append_nil;
    cbn [all_inert]; [done|].
  intros [H1 H2]%andb_true_iff Hy. by rewrite H1, IH.
Qed.

Lemma append_assoc (x y z : string) : (x ++ y) ++ z = x ++ (y ++ z).
Proof.
  induction x as [|c x IH]; rewrite ?append_cons, ?append_nil; [done|].
  by rewrite IH.
Qed.

Lemma toLowerCase_inert x rest :
  all_inert x = true → toLowerCase (x ++ rest) = x ++ toLowerCase rest.
Proof.
  induction x as [|c x IH]; rewrite ?append_cons, ?append_nil;
    cbn [all_inert toLowerCase]; [done|].
  intros [H1 H2]%andb_true_iff. by rewrite inert_lower, IH.
Qed.

(** A needle that starts with a letter of the marker is not found in the
    inert part. *)
Lemma includes_inert (a : ascii) (needle x rest : string) :
  (∀ c, inert c = true → a ≠ c) →
  all_inert x = true →
  includes (String a needle) (x ++ rest) = includes (String a needle) rest.
Proof.
  intros Ha. induction x as [|c x IH]; [done|].
  intros [H1 H2]%andb_true_iff.
  rewrite append_cons. cbn [includes String.prefix].
  destruct (ascii_dec a c) as [->|_]; [by destruct (Ha c H1)|].
  cbn. by apply IH.
Qed.

Lemma removeMeridiem_cons c d r :
  removeMeridiem (String c (String d r))
  = if meridiem_at c d then removeMeridiem r else String c (removeMeridiem (String d r)).
Proof. reflexivity. Qed.

Lemma removeMeridiem_inert x c1 c2 :
  all_inert x = true → meridiem_at c1 c2 = true →
  removeMeridiem (x ++ String c1 (String c2 EmptyString)) = x.
Proof.
  intros Hx Hm. induction x as [|c x IH].
  - rewrite append_nil. cbn. by rewrite Hm.
  - apply andb_true_iff in Hx as [H1 H2].
    rewrite append_cons.
    destruct (x ++ String c1 (String c2 EmptyString)) as [|d r] eqn:E.
    { by destruct x. }
    rewrite removeMeridiem_cons, (inert_not_marker c d H1). by rewrite IH.
Qed.

Lemma trimEnd_spaces n : trimEnd (spaces n) = EmptyString.
Proof. induction n; cbn; [done|]. by rewrite IHn. Qed.

Lemma trimEnd_plain x n :
  all_plain x = true → trimEnd (x ++ spaces n) = x.
Proof.
  induction x as [|c x IH]; rewrite ?append_cons, ?append_nil;
    [intros _; apply trimEnd_spaces|].
  intros [H1 H2]%andb_true_iff. cbn [trimEnd]. rewrite (IH H2).
  destruct x; [|done]. by rewrite plain_not_ws.
Qed.

(** Nothing is trimmed off a string that ends in a part that is not
    trimmed. *)
Lemma trimEnd_app x y :
  y ≠ EmptyString → trimEnd y = y → trimEnd (x ++ y) = x ++ y.
Proof.
  intros Hy Ht. induction x as [|c x IH]; rewrite ?append_cons, ?append_nil; [done|].
  cbn [trimEnd]. rewrite IH. destruct (x ++ y) eqn:E; [|done].
  destruct x; [by destruct Hy|done].
Qed.

Lemma trimStart_plain c x : plain c = true → trimStart (String c x) = String c x.
Proof. intros H. cbn. by rewrite plain_not_ws. Qed.

Lemma every_clock_reads_true : every_clock_reads = true.
Proof. vm_compute. reflexivity. Qed.

Lemma clock_reads_true padded h mm :
  1 <= h <= 12 →
  match mm with Some m => 0 <= m <= 59 | None => True end →
  clock_reads padded h mm = true.
Proof.
  intros Hh Hm. pose proof every_clock_reads_true as H.
  unfold every_clock_reads in H. rewrite forallb_forall in H.
  assert (Hin : In h (seqZ 1 12))
    by (apply list_elem_of_In, elem_of_seqZ; lia).
  apply H in Hin. rewrite forallb_forall in Hin.
  assert (Hp : In padded [true; false]) by (destruct padded; cbn; auto).
  apply Hin in Hp. apply andb_true_iff in Hp as [H1 H2].
  destruct mm as [m|]; [|done].
  rewrite forallb_forall in H2. apply H2.
  apply list_elem_of_In, elem_of_seqZ. lia.
Qed.

(** What the 12-hour branch computes on a well-formed input. *)
Lemma fields_input12 padded h mm gap m upper1 upper2 :
  1 <= h <= 12 →
  match mm with Some k => 0 <= k <= 59 | None => True end →
  let s := input12 padded h mm gap m upper1 upper2 in
  trim s = s
  ∧ has_meridiem Quiet s = true
  ∧ has_meridiem Verbose s = eqb upper1 upper2
  ∧ fields Quiet s = (Some (normalized24 h m), Some (default 0 mm)).
Proof.
  intros Hh Hm s.
  pose proof (clock_reads_true padded h mm Hh Hm) as Hc.
  unfold clock_reads in Hc.
  apply andb_true_iff in Hc as [[Hplain Hne]%andb_true_iff Hparts].
  set (text := clock_text padded h mm) in *.
  set (mk := marker_text m upper1 upper2).
  set (x := text ++ spaces gap).
  assert (Hs : s = x ++ mk) by (unfold s, input12, x; by rewrite append_assoc).
  assert (Hx : all_inert x = true)
    by (apply all_inert_app; [by apply all_plain_inert|apply all_inert_spaces]).
  assert (Hmk : ∃ c1 c2, mk = String c1 (String c2 EmptyString)
                         ∧ meridiem_at c1 c2 = true) by (unfold mk; cbn; eauto 6
    using eq_refl; destruct m, upper1, upper2; do 2 eexists; split; reflexivity).
  destruct Hmk as (c1 & c2 & Emk & Hm12).
  assert (Hletters : ∀ a, (a = "a" ∨ a = "p" ∨ a = "A" ∨ a = "P")%char →
                          ∀ c, inert c = true → a ≠ c).
  { intros a Ha c Hcin. destruct (inert_not_letter c Hcin) as (? & ? & ? & ?).
    destruct Ha as [-> | [-> | [-> | ->] ] ]; done. }
  assert (Htrim : trim s = s).
  { unfold trim. destruct text as [|c0 text'] eqn:Et; [done|].
    apply andb_true_iff in Hplain as [Hc0 Hrest].
    rewrite Hs. unfold x. rewrite !append_cons, trimStart_plain by done.
    rewrite <- !append_cons.
    apply trimEnd_app; [by rewrite Emk|].
    unfold mk. by destruct m, upper1, upper2. }
  assert (Hlow : toLowerCase s = x ++ toLowerCase mk)
    by (rewrite Hs; by apply toLowerCase_inert).
  assert (Ham : includes "am" (toLowerCase s) = match m with AM => true | PM => false end).
  { rewrite Hlow, includes_inert by (auto using Hletters).
    unfold mk. by destruct m, upper1, upper2. }
  assert (Hpm : includes "pm" (toLowerCase s) = match m with AM => false | PM => true end).
  { rewrite Hlow, includes_inert by (auto using Hletters).
    unfold mk. by destruct m, upper1, upper2. }
  assert (Hclean : trim (removeMeridiem s) = text).
  { rewrite Hs, Emk, removeMeridiem_inert by done.
    unfold trim, x. destruct text as [|c0 text'] eqn:Et; [done|].
    pose proof Hplain as Hplain'.
    apply andb_true_iff in Hplain as [Hc0 Hrest].
    rewrite append_cons, trimStart_plain by done.
    rewrite <- append_cons. by apply trimEnd_plain. }
  split; [exact Htrim|]. split; [|split].
  - unfold has_meridiem. rewrite Ham, Hpm. by destruct m.
  - unfold has_meridiem. rewrite Hs, !includes_inert by (auto 6 using Hletters).
    unfold mk. by destruct m, upper1, upper2.
  - unfold fields.
    replace (has_meridiem Quiet s) with true
      by (unfold has_meridiem; rewrite Ham, Hpm; by destruct m).
    rewrite Hpm, Hclean.
    destruct (hours_part (split ":" text)) as [a|]; [|done].
    destruct (minutes_part (split ":" text)) as [b|]; [|done].
    apply andb_true_iff in Hparts as [->%Z.eqb_eq ->%Z.eqb_eq].
    unfold normalized24.
    destruct m; destruct (h =? 12) eqn:E; cbn; rewrite ?E; try done.
    by apply Z.eqb_eq in E as ->.
Qed.

(** The file without logging reads every well-formed 12-hour input as
    the spec's table says: the returned date shows the normalized hour,
    the minutes (0 when absent), and zero seconds and milliseconds. *)
Lemma quiet_reads_12_hour_clock offset clock padded h mm gap m upper1 upper2 :
  1 <= h <= 12 →
  match mm with Some k => 0 <= k <= 59 | None => True end →
  let tz := fixed_zone offset in
  let d := date (parseTimeToDate Quiet tz clock (input12 padded h mm gap m upper1 upper2)) in
  getHours tz d = normalized24 h m
  ∧ getMinutes tz d = default 0 mm
  ∧ getSeconds tz d = 0
  ∧ getMilliseconds tz d = 0.
Proof.
  intros Hh Hm tz d.
  destruct (fields_input12 padded h mm gap m upper1 upper2 Hh Hm) as (Ht & _ & _ & Hf).
  assert (Hr : 0 <= normalized24 h m <= 23)
    by (unfold normalized24; destruct m; destruct (Z.eqb_spec h 12); lia).
  assert (Hk : 0 <= default 0 mm <= 59) by (destruct mm; cbn; lia).
  assert (Hv : validate (fields Quiet (trim (input12 padded h mm gap m upper1 upper2)))
               = Some (normalized24 h m, default 0 mm)).
  { rewrite Ht, Hf. unfold validate.
    destruct (Z.ltb_spec (normalized24 h m) 0); [lia|].
    destruct (Z.ltb_spec 23 (normalized24 h m)); [lia|].
    destruct (Z.ltb_spec (default 0 mm) 0); [lia|].
    destruct (Z.ltb_spec 59 (default 0 mm)); [lia|]. done. }
  subst d. rewrite (parse_valid _ _ _ _ _ _ Hv). cbv zeta.
  pose proof (setHours_fields offset _ _ (read_scheduledTime clock) Hr Hk) as Hs.
  cbv zeta in Hs. fold tz in Hs.
  destruct (_ <=? _); cbn [date]; [|done].
  unfold tz. rewrite setDateNextDay_fixed.
  destruct (fields_next_day_fixed offset
              (setHours (fixed_zone offset) (normalized24 h m) (default 0 mm) 0 0
                 (read_scheduledTime clock))) as (-> & -> & -> & ->).
  done.
Qed.

(** The logging file does the same when both letters of the marker have
    the same case. *)
Lemma verbose_reads_uniform_marker padded h mm gap m upper :
  1 <= h <= 12 →
  match mm with Some k => 0 <= k <= 59 | None => True end →
  fields Verbose (input12 padded h mm gap m upper upper)
  = (Some (normalized24 h m), Some (default 0 mm)).
Proof.
  intros Hh Hm.
  destruct (fields_input12 padded h mm gap m upper upper Hh Hm) as (_ & Hq & Hv & <-).
  unfold fields. rewrite Hv, Hq. by destruct upper.
Qed.

(** C4 at its failing input.  "7:30 Pm" is a well-formed 12-hour input,
    and the table gives hour 19.  The logging file looks for the marker
    spelled AM, PM, am or pm only, takes the 24-hour branch and reads hour
    7; the date it returns shows 7:30.  The file without logging reads
    19. *)
Theorem mixed_case_marker_is_missed (offset : Z) (clock : Clock) :
  input12 false 7 (Some 30) 1 PM true false = "7:30 Pm"
  ∧ normalized24 7 PM = 19
  ∧ has_meridiem Verbose (trim "7:30 Pm") = false
  ∧ fields Verbose (trim "7:30 Pm") = (Some 7, Some 30)
  ∧ fields Quiet (trim "7:30 Pm") = (Some 19, Some 30)
  ∧ getHours (fixed_zone offset)
      (date (parseTimeToDate Verbose (fixed_zone offset) clock "7:30 Pm")) = 7.
Proof.
  do 5 (split; [vm_compute; reflexivity|]).
  assert (Hv : validate (fields Verbose (trim "7:30 Pm")) = Some (7, 30))
    by (vm_compute; reflexivity).
  rewrite (parse_valid _ _ _ _ _ _ Hv). cbv zeta.
  pose proof (setHours_fields offset 7 30 (read_scheduledTime clock)
                ltac:(lia) ltac:(lia)) as (Hs & _).
  destruct (_ <=? _); cbn [date]; [|done].
  rewrite setDateNextDay_fixed.
  by destruct (fields_next_day_fixed offset
                 (setHours (fixed_zone offset) 7 30 0 0 (read_scheduledTime clock)))
    as (-> & _).
Qed.

End ParserFacts.

(** * Properties of the manager, and of a request on its way to the worker *)

Module ManagerFacts.

Import TimeParser Manager.

(** [initialize] never prompts and never alerts. *)
Lemma initialize_quiet v p m e :
  In e (effects (initialize v p m)) → e ≠ Prompt ∧ ∀ a, e ≠ Alert a.
Proof.
  unfold initialize.
  destruct (isSupported m), (isInitialized m), v, (register_result p) as [[[] [] ?]|],
    (activation p), (ready p); cbn; intros H;
    repeat (destruct H as [<-|H]; [by split|]); done.
Qed.

Lemma initialize_not_prompting v p m : ¬ In Prompt (effects (initialize v p m)).
Proof. intros H. by destruct (initialize_quiet _ _ _ _ H). Qed.

Lemma initialize_no_alert v p m : alerts (initialize v p m) = [].
Proof.
  unfold alerts, initialize.
  by destruct (isSupported m), (isInitialized m), v, (register_result p) as [[[] [] ?]|],
    (activation p), (ready p).
Qed.

(** With the permission denied, the part of [requestPermission] that
    follows initialization alerts and fails. *)
Lemma requestPermission_ready_denied v p m :
  permission p = PermissionDenied →
  requestPermission_ready v p m = (false, [Alert AlertBlocked]).
Proof. intros H. unfold requestPermission_ready. by rewrite H. Qed.

(** C7, as amended.  With the permission denied, [requestPermission] on a
    supported manager that is initialized, or whose initialization
    succeeds, returns failure with the alert that notifications are
    blocked and how to enable them, after no other alert and without a
    prompt; on an initialized manager that alert is all it does.  On any
    manager whatever, with the permission denied, it issues no prompt and
    does not return success. *)
Theorem denied_permission_short_circuits (v : Variant) (p : Platform) (m : Fields) :
  permission p = PermissionDenied →
  isSupported m = true →
  isInitialized m = true ∨ outcome (initialize v p m) = Fulfilled true →
  let r := requestPermission v p m in
  outcome r = Fulfilled false
  ∧ alerts r = [AlertBlocked]
  ∧ last (effects r) = Some (Alert AlertBlocked)
  ∧ ¬ In Prompt (effects r)
  ∧ (isInitialized m = true → effects r = [Alert AlertBlocked])
  ∧ (∀ m', ¬ In Prompt (effects (requestPermission v p m'))
           ∧ outcome (requestPermission v p m') ≠ Fulfilled true).
Proof.
  intros Hp Hs Hi r.
  assert (Hgen : ∀ m', ¬ In Prompt (effects (requestPermission v p m'))
                       ∧ outcome (requestPermission v p m') ≠ Fulfilled true).
  { intros m'. unfold requestPermission.
    rewrite !requestPermission_ready_denied by done.
    pose proof (initialize_not_prompting v p m') as Hn.
    destruct (isSupported m'), (isInitialized m'); cbn;
      try (split; [intros [?|[]]|]; done).
    destruct (outcome (initialize v p m')) as [[]|]; cbn; split; try done;
      try (rewrite in_app_iff; intros [?|[?|[]]]; done). }
  subst r. unfold requestPermission. rewrite Hs.
  rewrite !requestPermission_ready_denied by done. cbn [negb].
  destruct (isInitialized m) eqn:Ei; cbn [negb].
  { cbn. do 3 (split; [done|]). split; [intros [?|[]]; done|].
    split; [done|exact Hgen]. }
  destruct Hi as [?|Hi]; [done|]. rewrite Hi. cbn [outcome effects].
  split; [done|]. split; [|split; [|split; [|split; [done|exact Hgen]]]].
  - unfold alerts. cbn [effects]. rewrite omap_app.
    fold (alerts (initialize v p m)). by rewrite initialize_no_alert.
  - by rewrite last_snoc.
  - rewrite in_app_iff. intros [H|[H|[]]]; [|done].
    by apply (initialize_not_prompting v p m).
Qed.

Lemma denied_permission_short_circuits_witness :
  let p := {| permission := PermissionDenied; register_result := None;
              activation := false; ready := None; prompt_result := None |} in
  let m := {| registration := Some {| installing := false; waiting := false;
                                      active := true |};
              isSupported := true; isInitialized := true |} in
  outcome (requestPermission Verbose p m) = Fulfilled false
  ∧ effects (requestPermission Verbose p m) = [Alert AlertBlocked].
Proof.
  intros p m.
  destruct (denied_permission_short_circuits Verbose p m eq_refl eq_refl
              (or_introl eq_refl)) as (H1 & _ & _ & _ & H5 & _).
  split; [exact H1|exact (H5 eq_refl)].
Defined.

(** C7 as the spec states it fails on a manager that is not initialized
    and whose registration is refused: the permission is denied, and the
    alert is the one about the notification service, without the steps;
    and on a manager whose installing worker never activates the call
    does not return. *)
Lemma denied_permission_other_outcomes :
  let m := {| registration := None; isSupported := true; isInitialized := false |} in
  let refused := {| permission := PermissionDenied; register_result := None;
                    activation := false; ready := None; prompt_result := None |} in
  let stuck := {| permission := PermissionDenied;
                  register_result := Some {| installing := true; waiting := false;
                                             active := false |};
                  activation := false; ready := None; prompt_result := None |} in
  effects (requestPermission Quiet refused m)
  = [Register; Console LevelError RegistrationFailed; Alert AlertInitFailed]
  ∧ ¬ In (Alert AlertBlocked) (effects (requestPermission Quiet refused m))
  ∧ outcome (requestPermission Quiet stuck m) = Pending.
Proof.
  cbn. split; [done|]. split; [|done].
  intros [H|[H|[H|[]]]]; discriminate H.
Qed.

End ManagerFacts.

(** * A schedule request beyond the timer range *)

Module RequestFacts.

Import SchedulerFacts.

(** A manager that is initialized posts the schedule message and reports
    success, whatever the time. *)
Lemma manager_posts_and_succeeds v p fnow id t b ms m r sw :
  Manager.isInitialized m = true →
  Manager.registration m = Some r →
  Manager.pick_worker r = Some sw →
  Manager.permission p = Manager.PermissionGranted →
  let call := Manager.scheduleNotification v p fnow id t b (Some ms) m in
  Manager.outcome call = Manager.Fulfilled true
  ∧ Manager.posted call = [ServiceWorker.SCHEDULE_NOTIFICATION id t b (Some ms)].
Proof.
  intros Hi Hr Hsw Hp. cbv zeta. unfold Manager.scheduleNotification.
  rewrite Hi. cbn. rewrite Hr, Hp, Hsw. cbn. split; [done|].
  unfold Manager.posted. cbn. by destruct v.
Qed.

(** C1, as amended.  A schedule request whose delay exceeds 2147483647 ms
    is dropped by the worker: the listener cancels any entry of the id,
    arms no timeout, inserts no entry, shows nothing, and writes a console
    warning.  No error is raised and nothing goes back to the caller: the
    manager, once it has posted the message, reports success. *)
Theorem too_far_request_is_dropped
    (v : TimeParser.Variant) (p : Manager.Platform) (fnow : Z) (m : Manager.Fields)
    (r : Manager.Registration) (sw : Manager.Worker)
    (id t b : string) (ms now : Z) (s : ServiceWorker.State) :
  Manager.isInitialized m = true →
  Manager.registration m = Some r →
  Manager.pick_worker r = Some sw →
  Manager.permission p = Manager.PermissionGranted →
  ServiceWorker.MAX_TIMEOUT < ms - now →
  let call := Manager.scheduleNotification v p fnow id t b (Some ms) m in
  let s' := ServiceWorker.onmessage
              (ServiceWorker.SCHEDULE_NOTIFICATION id t b (Some ms)) now s in
  Manager.outcome call = Manager.Fulfilled true
  ∧ Manager.posted call = [ServiceWorker.SCHEDULE_NOTIFICATION id t b (Some ms)]
  ∧ ServiceWorker.scheduledNotifications s'
    = delete id (ServiceWorker.scheduledNotifications s)
  ∧ ServiceWorker.timers s' ⊆ ServiceWorker.timers s
  ∧ ServiceWorker.nextTimeoutId s' = ServiceWorker.nextTimeoutId s
  ∧ ServiceWorker.shown s' = ServiceWorker.shown s
  ∧ last (ServiceWorker.trace s')
    = Some (ServiceWorker.Console LevelWarn ServiceWorker.LogDelayTooLong).
Proof.
  intros Hi Hr Hsw Hp Hd call s'.
  destruct (manager_posts_and_succeeds v p fnow id t b ms m r sw Hi Hr Hsw Hp)
    as [H1 H2].
  split; [exact H1|]. split; [exact H2|].
  subst s'. unfold ServiceWorker.onmessage.
  set (s0 := ServiceWorker.emit _ s).
  destruct (schedule_too_far id t b (Some ms) now s0) as (Hs & Ht & Hn & Hsh & Hl).
  { cbn. unfold ServiceWorker.MAX_TIMEOUT in *. lia. }
  { cbn. lia. }
  rewrite Hs, Ht, Hn, Hsh, Hl. repeat split.
  - etrans; [apply cancel_timers_subseteq|]. done.
  - unfold s0. apply shown_emit_console.
Qed.

Lemma too_far_request_is_dropped_witness :
  let p := {| Manager.permission := Manager.PermissionGranted;
              Manager.register_result := None; Manager.activation := false;
              Manager.ready := None; Manager.prompt_result := None |} in
  let r := {| Manager.installing := false; Manager.waiting := false;
              Manager.active := true |} in
  let m := {| Manager.registration := Some r; Manager.isSupported := true;
              Manager.isInitialized := true |} in
  let call := Manager.scheduleNotification TimeParser.Quiet p 0 "x" "Walk dog" ""
                (Some 3000000000) m in
  let s' := ServiceWorker.onmessage
              (ServiceWorker.SCHEDULE_NOTIFICATION "x" "Walk dog" "" (Some 3000000000))
              0 ServiceWorker.initial in
  Manager.outcome call = Manager.Fulfilled true
  ∧ ServiceWorker.timers s' ⊆ ServiceWorker.timers ServiceWorker.initial
  ∧ ServiceWorker.shown s' = ServiceWorker.shown ServiceWorker.initial.
Proof.
  intros p r m call s'.
  assert (Hd : ServiceWorker.MAX_TIMEOUT < 3000000000 - 0)
    by (unfold ServiceWorker.MAX_TIMEOUT; lia).
  destruct (too_far_request_is_dropped TimeParser.Quiet p 0 m r Manager.ActiveWorker
              "x" "Walk dog" "" 3000000000 0 ServiceWorker.initial
              eq_refl eq_refl eq_refl eq_refl Hd)
    as (H1 & _ & _ & H4 & _ & H6 & _).
  exact (conj H1 (conj H4 H6)).
Defined.

(** C1 as the spec states it fails: a request 3000000000 ms ahead, made
    on a manager that is ready and permitted, is reported to the caller as
    scheduled; the worker that receives the message writes log lines and a
    warning and nothing else, and holds no entry and no timeout. *)
Lemma too_far_request_reports_success :
  let p := {| Manager.permission := Manager.PermissionGranted;
              Manager.register_result := None; Manager.activation := false;
              Manager.ready := None; Manager.prompt_result := None |} in
  let m := {| Manager.registration :=
                Some {| Manager.installing := false; Manager.waiting := false;
                        Manager.active := true |};
              Manager.isSupported := true; Manager.isInitialized := true |} in
  let call := Manager.scheduleNotification TimeParser.Verbose p 0 "x" "Walk dog" ""
                (Some 3000000000) m in
  let s' := ServiceWorker.run
              (map (λ msg, ServiceWorker.Receive msg 0) (Manager.posted call))
              ServiceWorker.initial in
  ServiceWorker.MAX_TIMEOUT < 3000000000 - 0
  ∧ Manager.outcome call = Manager.Fulfilled true
  ∧ ServiceWorker.trace s'
    = [ServiceWorker.Console LevelLog ServiceWorker.LogMessageReceived;
       ServiceWorker.Console LevelLog (ServiceWorker.LogScheduling "Walk dog");
       ServiceWorker.Console LevelLog ServiceWorker.LogScheduledFor;
       ServiceWorker.Console LevelLog (ServiceWorker.LogWillTriggerIn (Some 3000000000));
       ServiceWorker.Console LevelWarn ServiceWorker.LogDelayTooLong]
  ∧ ServiceWorker.scheduledNotifications s' = ∅
  ∧ ServiceWorker.timers s' = ∅.
Proof. vm_compute. repeat split; reflexivity. Qed.

End RequestFacts.

(** * More on the scheduler: handles, frames, and what the store holds *)

Module SchedulerMore.

Import ServiceWorker SchedulerFacts.

Lemma fire_timers tid s : timers (fire tid s) = delete tid (timers s).
Proof.
  unfold fire. destruct (timers s !! tid) eqn:E; [done|]. by rewrite delete_id.
Qed.

Lemma fire_next tid s : nextTimeoutId (fire tid s) = nextTimeoutId s.
Proof. unfold fire. by destruct (timers s !! tid). Qed.

Lemma fire_store tid s :
  scheduledNotifications (fire tid s)
  = match timers s !! tid with
    | Some cb => delete (cb_id cb) (scheduledNotifications s)
    | None => scheduledNotifications s
    end.
Proof. unfold fire. by destruct (timers s !! tid). Qed.

Lemma fire_spent tid s : timers s !! tid = None → fire tid s = s.
Proof. intros H. unfold fire. by rewrite H. Qed.


(** The delay a timeout is armed with. *)
Lemma armed_delay_in_range st now :
  num_le (delay_of st now) 0 = false →
  num_gt (delay_of st now) MAX_TIMEOUT = false →
  0 <= default 0 (delay_of st now) <= MAX_TIMEOUT.
Proof.
  destruct st as [ms|]; cbn; [|unfold MAX_TIMEOUT; lia].
  intros H1%Z.leb_gt H2%Z.ltb_ge. lia.
Qed.

(** What one call of [scheduleNotification] does to the timeouts: it
    removes some, and arms at most one, under a fresh handle. *)
Lemma schedule_timers id t b st now s :
  let s' := scheduleNotification id t b st now s in
  (timers s' ⊆ timers s ∧ nextTimeoutId s' = nextTimeoutId s)
  ∨ (∃ cb m0, m0 ⊆ timers s
              ∧ timers s' = <[nextTimeoutId s := cb]> m0
              ∧ nextTimeoutId s' = S (nextTimeoutId s)
              ∧ 0 <= timer_delay cb <= MAX_TIMEOUT).
Proof.
  cbv zeta.
  destruct (num_le (delay_of st now) 0) eqn:E1.
  { left. destruct (schedule_past id t b st now s E1) as (_ & -> & -> & _).
    split; [apply cancel_timers_subseteq|done]. }
  destruct (num_gt (delay_of st now) MAX_TIMEOUT) eqn:E2.
  { left. destruct (schedule_too_far id t b st now s E1 E2) as (_ & -> & -> & _).
    split; [apply cancel_timers_subseteq|done]. }
  right. destruct (schedule_arms id t b st now s E1 E2) as (_ & -> & -> & _).
  eexists _, _. split; [apply cancel_timers_subseteq|].
  split; [done|]. split; [done|]. cbn. by apply armed_delay_in_range.
Qed.

Lemma step_timers s e :
  (timers (step s e) ⊆ timers s ∧ nextTimeoutId (step s e) = nextTimeoutId s)
  ∨ (∃ cb m0, m0 ⊆ timers s
              ∧ timers (step s e) = <[nextTimeoutId s := cb]> m0
              ∧ nextTimeoutId (step s e) = S (nextTimeoutId s)
              ∧ 0 <= timer_delay cb <= MAX_TIMEOUT).
Proof.
  destruct e as [m now|tid]; cbn [step].
  - unfold onmessage. destruct m as [id t b st|id|[]| |].
    + apply (schedule_timers id t b st now
               (emit (Console LevelLog LogMessageReceived) s)).
    + left. split; [apply (cancel_timers_subseteq id (emit _ s))|].
      apply (cancel_next id (emit _ s)).
    + by left.
    + by left.
    + by left.
    + by left.
  - left. rewrite fire_timers, fire_next. split; [apply delete_subseteq|done].
Qed.

(** A handle that is below the counter and not armed stays so. *)
Lemma spent_step tid s e :
  timers s !! tid = None → (tid < nextTimeoutId s)%nat →
  timers (step s e) !! tid = None ∧ (tid < nextTimeoutId (step s e))%nat.
Proof.
  intros Hn Hlt.
  destruct (step_timers s e) as [[Hsub ->]|(cb & m0 & Hsub & -> & -> & _)].
  - split; [|done]. eapply lookup_weaken_None; eauto.
  - split; [|lia]. rewrite lookup_insert_ne by lia.
    eapply lookup_weaken_None; eauto.
Qed.

Lemma spent_run es tid s :
  timers s !! tid = None → (tid < nextTimeoutId s)%nat →
  timers (run es s) !! tid = None ∧ (tid < nextTimeoutId (run es s))%nat.
Proof.
  revert s. induction es as [|e es IH]; intros s Hn Hlt; cbn; [done|].
  destruct (spent_step tid s e Hn Hlt). by apply IH.
Qed.

(** An armed handle is below the counter. *)
Lemma armed_below_counter s tid cb :
  coherent s → timers s !! tid = Some cb → (tid < nextTimeoutId s)%nat.
Proof.
  intros Hc H. destruct (decide (tid < nextTimeoutId s)%nat) as [|Hge]; [done|].
  rewrite (coh_fresh s Hc tid) in H by lia. done.
Qed.

(** X1. Cancelling an id that has no entry changes nothing, and
    cancelling twice is cancelling once. *)
Theorem cancel_is_idempotent (id : string) (s : State) :
  cancelScheduledNotification id (cancelScheduledNotification id s)
  = cancelScheduledNotification id s
  ∧ (scheduledNotifications s !! id = None → cancelScheduledNotification id s = s).
Proof.
  split; [|apply cancel_absent]. apply cancel_absent, cancel_lookup.
Qed.

Lemma cancel_is_idempotent_witness :
  cancelScheduledNotification "x" initial = initial.
Proof. exact (proj2 (cancel_is_idempotent "x" initial) eq_refl). Defined.

(** X2. Once an entry is cancelled, its timeout never runs: whatever
    messages and timeouts the worker processes afterwards, the handle of
    the cancelled entry is not armed again, and its firing does nothing. *)
Theorem cancelled_timeout_never_fires
    (es es' : list Event) (id : string) (n : Scheduled) :
  scheduledNotifications (run es initial) !! id = Some n →
  let s' := run es' (cancelScheduledNotification id (run es initial)) in
  timers s' !! timeoutId n = None ∧ fire (timeoutId n) s' = s'.
Proof.
  intros Hn s'.
  assert (Hc : coherent (run es initial)) by apply coherent_run, coherent_initial.
  destruct (coh_entry _ Hc _ _ Hn) as (cb & Hcb & _).
  destruct (cancel_present _ _ _ Hn) as (_ & Ht & Hnext & _).
  destruct (spent_run es' (timeoutId n) (cancelScheduledNotification id (run es initial)))
    as [H _].
  - rewrite Ht. apply lookup_delete_eq.
  - rewrite Hnext. by eapply armed_below_counter.
  - split; [exact H|]. by apply fire_spent.
Qed.

Lemma cancelled_timeout_never_fires_witness :
  let es := [Receive (SCHEDULE_NOTIFICATION "x" "Walk dog" "" (Some 5000)) 0] in
  let n := {| timeoutId := 1; title := "Walk dog"; body := "";
              scheduledTime := Some 5000 |} in
  let s' := run [Receive (SCHEDULE_NOTIFICATION "y" "Feed cat" "" (Some 9000)) 2000;
                 Timeout 1]
              (cancelScheduledNotification "x" (run es initial)) in
  timers s' !! timeoutId n = None ∧ fire (timeoutId n) s' = s'.
Proof.
  intros es n.
  refine (cancelled_timeout_never_fires es _ "x" n _).
  vm_compute. reflexivity.
Defined.

(** X4. Scheduling, cancelling or firing one id leaves every other id
    alone: its entry stays as it is and its timeout stays armed. *)
Theorem other_ids_are_untouched
    (es : list Event) (id id' : string) (n' : Scheduled) :
  id ≠ id' →
  scheduledNotifications (run es initial) !! id' = Some n' →
  let s := run es initial in
  (∀ t b st now,
     let s' := scheduleNotification id t b st now s in
     scheduledNotifications s' !! id' = Some n'
     ∧ timers s' !! timeoutId n' = timers s !! timeoutId n')
  ∧ (let s' := cancelScheduledNotification id s in
     scheduledNotifications s' !! id' = Some n'
     ∧ timers s' !! timeoutId n' = timers s !! timeoutId n')
  ∧ (∀ tid cb, timers s !! tid = Some cb → cb_id cb = id →
     let s' := fire tid s in
     scheduledNotifications s' !! id' = Some n'
     ∧ timers s' !! timeoutId n' = timers s !! timeoutId n')
  ∧ is_Some (timers s !! timeoutId n').
Proof.
  intros Hne Hn' s.
  assert (Hc : coherent s) by apply coherent_run, coherent_initial.
  destruct (coh_entry s Hc _ _ Hn') as (cb' & Hcb' & Hid' & _).
  pose proof (armed_below_counter s _ _ Hc Hcb') as Hlt.
  assert (Hcancel : scheduledNotifications (cancelScheduledNotification id s) !! id'
                    = Some n'
                    ∧ timers (cancelScheduledNotification id s) !! timeoutId n'
                      = timers s !! timeoutId n').
  { rewrite cancel_store, lookup_delete_ne by done. split; [done|].
    destruct (scheduledNotifications s !! id) as [n|] eqn:E;
      [|by rewrite cancel_absent].
    destruct (cancel_present _ _ _ E) as (_ & -> & _).
    apply lookup_delete_ne. intros Heq.
    apply Hne. by eapply (entry_timeout_inj s id id' n n'). }
  split; [|split; [exact Hcancel|split; [|eauto]]].
  - intros t b st now s'. subst s'.
    destruct Hcancel as [_ Hct].
    destruct (num_le (delay_of st now) 0) eqn:E1.
    { destruct (schedule_past id t b st now s E1) as (-> & -> & _).
      by rewrite lookup_delete_ne. }
    destruct (num_gt (delay_of st now) MAX_TIMEOUT) eqn:E2.
    { destruct (schedule_too_far id t b st now s E1 E2) as (-> & -> & _).
      by rewrite lookup_delete_ne. }
    destruct (schedule_arms id t b st now s E1 E2) as (-> & -> & _).
    rewrite lookup_insert_ne, lookup_delete_ne by done.
    split; [done|]. by rewrite lookup_insert_ne by lia.
  - intros tid cb Hcb Hid s'. subst s'.
    rewrite fire_store, Hcb, Hid, fire_timers, lookup_delete_ne by done.
    split; [done|]. apply lookup_delete_ne. intros ->.
    rewrite Hcb in Hcb'. congruence.
Qed.

Lemma other_ids_are_untouched_witness :
  let es := [Receive (SCHEDULE_NOTIFICATION "x" "Walk dog" "" (Some 5000)) 0;
             Receive (SCHEDULE_NOTIFICATION "y" "Feed cat" "" (Some 9000)) 0] in
  let n' := {| timeoutId := 2; title := "Feed cat"; body := "";
               scheduledTime := Some 9000 |} in
  scheduledNotifications (cancelScheduledNotification "x" (run es initial)) !! "y"
  = Some n'.
Proof.
  intros es n'.
  refine (proj1 (proj1 (proj2 (other_ids_are_untouched es "x" "y" n' _ _)))).
  - discriminate.
  - vm_compute. reflexivity.
Defined.

(** X5. A time that [Date] cannot read is neither shown at once nor
    refused: its delay is [NaN], both guards are false, and the entry is
    stored with a timeout armed for a delay of 0. *)
Theorem unreadable_time_is_armed_at_once
    (id t b : string) (now : Z) (s : State) :
  let s' := scheduleNotification id t b None now s in
  scheduledNotifications s' !! id
  = Some {| timeoutId := nextTimeoutId s; title := t; body := b;
            scheduledTime := None |}
  ∧ timers s' !! nextTimeoutId s
    = Some {| cb_title := t; cb_body := b; cb_id := id; timer_delay := 0 |}
  ∧ shown s' = shown s
  ∧ shown (fire (nextTimeoutId s) s')
    = shown s ++ [(t, {| opt_body := b;
                         opt_tag := js_or (JsString id) (JsString DEFAULT_TAG) |})].
Proof.
  intros s'. subst s'.
  destruct (schedule_arms id t b None now s eq_refl eq_refl) as (Hs & Ht & _ & Hsh).
  assert (Hl : timers (scheduleNotification id t b None now s) !! nextTimeoutId s
               = Some {| cb_title := t; cb_body := b; cb_id := id; timer_delay := 0 |})
    by (rewrite Ht; apply lookup_insert_eq).
  split; [rewrite Hs; apply lookup_insert_eq|]. split; [exact Hl|]. split; [exact Hsh|].
  unfold fire. rewrite Hl.
  transitivity
    (shown (showNotification t b (JsString id)
              (emit (Console LevelLog (LogTriggering t))
                 {| scheduledNotifications :=
                      scheduledNotifications (scheduleNotification id t b None now s);
                    timers := delete (nextTimeoutId s)
                                (timers (scheduleNotification id t b None now s));
                    nextTimeoutId :=
                      nextTimeoutId (scheduleNotification id t b None now s);
                    trace := trace (scheduleNotification id t b None now s) |})));
    [done|].
  rewrite shown_showNotification, shown_emit_console. by rewrite <- Hsh.
Qed.

(** X6. A GET_SCHEDULED message that comes with a port is answered with
    exactly the ids that have a timeout armed.  One that comes without a
    port is not answered: the listener throws a TypeError and posts
    nothing.  Neither changes the store or the timeouts. *)
Theorem query_lists_armed_ids (es : list Event) (now : Z) :
  let s := run es initial in
  (let s' := onmessage (GET_SCHEDULED true) now s in
   ∃ ids, trace s' = trace s ++ [Console LevelLog LogMessageReceived; PostReply ids]
          ∧ (∀ id, id ∈ ids ↔ armed_for s id)
          ∧ scheduledNotifications s' = scheduledNotifications s
          ∧ timers s' = timers s)
  ∧ (let s' := onmessage (GET_SCHEDULED false) now s in
     trace s' = trace s ++ [Console LevelLog LogMessageReceived; UncaughtTypeError]
     ∧ scheduledNotifications s' = scheduledNotifications s
     ∧ timers s' = timers s).
Proof.
  intros s.
  assert (Hc : coherent s) by apply coherent_run, coherent_initial.
  split.
  - exists (dom (scheduledNotifications s)). split; [|split; [|done]].
    + unfold onmessage. cbn. by rewrite <- app_assoc.
    + intros id. rewrite elem_of_dom. by apply coherent_armed.
  - unfold onmessage. cbn. by rewrite <- app_assoc.
Qed.

(** Cancelling one id leaves the timeout of another id's entry as it
    is. *)
Lemma cancel_frame s id id' n' :
  coherent s → id ≠ id' →
  scheduledNotifications s !! id' = Some n' →
  timers (cancelScheduledNotification id s) !! timeoutId n'
  = timers s !! timeoutId n'.
Proof.
  intros Hc Hne Hn'.
  destruct (scheduledNotifications s !! id) as [n|] eqn:E;
    [|by rewrite cancel_absent].
  destruct (cancel_present _ _ _ E) as (_ & -> & _).
  apply lookup_delete_ne. intros Heq.
  apply Hne. by eapply (entry_timeout_inj s id id' n n').
Qed.

Lemma readable_emit e s : readable_in_range s → readable_in_range (emit e s).
Proof. done. Qed.

Lemma readable_cancel id s :
  coherent s → readable_in_range s →
  readable_in_range (cancelScheduledNotification id s).
Proof.
  intros Hc Hr id' n' ms' Hn' Hst.
  rewrite cancel_store in Hn'. apply lookup_delete_Some in Hn' as [Hne Hn'].
  rewrite (cancel_frame s id id' n') by done. by eapply Hr.
Qed.

Lemma readable_schedule id t b st now s :
  coherent s → readable_in_range s →
  readable_in_range (scheduleNotification id t b st now s).
Proof.
  intros Hc Hr.
  pose proof (readable_cancel id s Hc Hr) as Hr'.
  pose proof (coherent_cancel id s Hc) as Hc'.
  destruct (num_le (delay_of st now) 0) eqn:E1.
  { destruct (schedule_past id t b st now s E1) as (Hs & Ht & _).
    intros id' n' ms'. rewrite Hs, Ht, <- cancel_store. apply Hr'. }
  destruct (num_gt (delay_of st now) MAX_TIMEOUT) eqn:E2.
  { destruct (schedule_too_far id t b st now s E1 E2) as (Hs & Ht & _).
    intros id' n' ms'. rewrite Hs, Ht, <- cancel_store. apply Hr'. }
  destruct (schedule_arms id t b st now s E1 E2) as (Hs & Ht & _).
  intros id' n' ms'. rewrite Hs, Ht.
  intros [[<- <-]|[Hne Hn']]%lookup_insert_Some Hst; cbn in *.
  - rewrite lookup_insert_eq. eexists. split; [done|]. split; [done|].
    subst st. cbn in *. apply Z.leb_gt in E1. apply Z.ltb_ge in E2. lia.
  - rewrite <- cancel_store in Hn'.
    destruct (Hr' id' n' ms' Hn' Hst) as (cb & Hcb & Hrest).
    pose proof (armed_below_counter _ _ _ Hc' Hcb) as Hlt.
    rewrite cancel_next in Hlt.
    rewrite lookup_insert_ne by lia. eauto.
Qed.

Lemma readable_fire tid s :
  coherent s → readable_in_range s → readable_in_range (fire tid s).
Proof.
  intros Hc Hr id' n' ms'.
  rewrite fire_store, fire_timers.
  destruct (timers s !! tid) as [cb|] eqn:E.
  - intros [Hne Hn']%lookup_delete_Some Hst.
    destruct (Hr id' n' ms' Hn' Hst) as (cb' & Hcb' & Hid' & Hd).
    exists cb'. split; [|done].
    rewrite lookup_delete_ne; [done|]. intros Heq. rewrite Heq in E. congruence.
  - intros Hn' Hst. rewrite delete_id by done. by eapply Hr.
Qed.

Lemma readable_run es s :
  coherent s → readable_in_range s → readable_in_range (run es s).
Proof.
  revert s. induction es as [|e es IH]; intros s Hc Hr; cbn; [done|].
  apply IH; [by apply coherent_step|].
  destruct e as [m now|tid]; cbn [step]; [|by apply readable_fire].
  unfold onmessage.
  pose proof (proj1 (coherent_emit (Console LevelLog LogMessageReceived) s) Hc) as Hc0.
  pose proof (readable_emit (Console LevelLog LogMessageReceived) s Hr) as Hr0.
  destruct m as [id t b st|id|[]| |].
  - by apply readable_schedule.
  - by apply readable_cancel.
  - by apply readable_emit.
  - by apply readable_emit.
  - by apply readable_emit.
  - done.
Qed.

(** X7. In every state the worker reaches, the timeout of an entry whose
    time [Date] could read is armed, for the id of the entry, with the
    delay the guards let through: positive and at most 2147483647 ms. *)
Theorem armed_delays_are_in_range
    (es : list Event) (id : string) (n : Scheduled) (ms : Z) :
  scheduledNotifications (run es initial) !! id = Some n →
  scheduledTime n = Some ms →
  ∃ cb, timers (run es initial) !! timeoutId n = Some cb
        ∧ cb_id cb = id
        ∧ 0 < timer_delay cb <= MAX_TIMEOUT.
Proof.
  apply (readable_run es initial coherent_initial).
  intros id' n' ms'. cbn. by rewrite lookup_empty.
Qed.

Lemma armed_delays_are_in_range_witness :
  ∃ cb, timers (run [Receive (SCHEDULE_NOTIFICATION "x" "Walk dog" "" (Some 5000)) 1000]
                  initial) !! 1%nat = Some cb
        ∧ cb_id cb = "x"
        ∧ 0 < timer_delay cb <= MAX_TIMEOUT.
Proof.
  refine (armed_delays_are_in_range
            [Receive (SCHEDULE_NOTIFICATION "x" "Walk dog" "" (Some 5000)) 1000] "x"
            {| timeoutId := 1; title := "Walk dog"; body := "";
               scheduledTime := Some 5000 |} 5000 _ eq_refl).
  vm_compute. reflexivity.
Defined.

(** X8. When the timeout of a stored entry fires, whenever that is, one
    alert is shown, with the title and the body stored in the entry and
    the id as its tag, and the entry is gone. *)
Theorem stored_entry_fires_as_stored
    (es : list Event) (id : string) (n : Scheduled) :
  scheduledNotifications (run es initial) !! id = Some n →
  let s := run es initial in
  let s' := fire (timeoutId n) s in
  shown s' = shown s ++ [(title n, {| opt_body := body n;
                                      opt_tag := js_or (JsString id)
                                                   (JsString DEFAULT_TAG) |})]
  ∧ scheduledNotifications s' !! id = None
  ∧ ¬ armed_for s' id.
Proof.
  intros Hn s s'.
  assert (Hc : coherent s) by apply coherent_run, coherent_initial.
  assert (Hc' : coherent s') by by apply coherent_fire.
  destruct (coh_entry s Hc _ _ Hn) as (cb & Hcb & Hid & Ht & Hb).
  assert (Hstore : scheduledNotifications s' !! id = None).
  { subst s'. rewrite fire_store, Hcb, Hid. apply lookup_delete_eq. }
  split; [|split; [exact Hstore|]].
  - subst s'. unfold fire. rewrite Hcb.
    transitivity
      (shown (showNotification (cb_title cb) (cb_body cb) (JsString (cb_id cb))
                (emit (Console LevelLog (LogTriggering (cb_title cb)))
                   {| scheduledNotifications := scheduledNotifications s;
                      timers := delete (timeoutId n) (timers s);
                      nextTimeoutId := nextTimeoutId s;
                      trace := trace s |}))); [done|].
    rewrite shown_showNotification, shown_emit_console. by rewrite Hid, Ht, Hb.
  - intros Ha%(coherent_armed s' id Hc'). rewrite Hstore in Ha. by destruct Ha.
Qed.

Lemma stored_entry_fires_as_stored_witness :
  let es := [Receive (SCHEDULE_NOTIFICATION "x" "Walk dog" "soon" (Some 5000)) 0] in
  let s := run es initial in
  scheduledNotifications (fire 1 s) !! "x" = None.
Proof.
  intros es s.
  refine (proj1 (proj2 (stored_entry_fires_as_stored es "x"
                          {| timeoutId := 1; title := "Walk dog"; body := "soon";
                             scheduledTime := Some 5000 |} _))).
  vm_compute. reflexivity.
Defined.

End SchedulerMore.

(** * Clicks on a notification *)

Module ClickFacts.

Import NotificationClick.

(** The loop returns the first window of the app, counted from [k]. *)
Lemma first_app_window_spec scope clientList k i url :
  first_app_window scope clientList k = Some (i, url)
  ↔ ∃ j, i = (k + j)%nat
         ∧ clientList !! j = Some url
         ∧ is_app_window scope url = true
         ∧ ∀ j' u, (j' < j)%nat → clientList !! j' = Some u →
                   is_app_window scope u = false.
Proof.
  revert k. induction clientList as [|c l IH]; intros k; cbn [first_app_window].
  - split; [done|]. by intros (j & _ & H & _).
  - destruct (is_app_window scope c) eqn:E.
    + split.
      * intros [= <- <-]. exists 0%nat. repeat split; [lia|done|].
        intros j' u Hj. lia.
      * intros (j & -> & Hl & Hm & Hbefore). destruct j as [|j].
        { cbn in Hl. injection Hl as <-. f_equal. f_equal. lia. }
        specialize (Hbefore 0%nat c ltac:(lia) eq_refl). congruence.
    + rewrite IH. split.
      * intros (j & -> & Hl & Hm & Hbefore). exists (S j).
        repeat split; [lia|done|done|].
        intros [|j'] u Hj Hu; cbn in Hu; [congruence|].
        apply (Hbefore j' u); [lia|done].
      * intros (j & -> & Hl & Hm & Hbefore). destruct j as [|j].
        { cbn in Hl. congruence. }
        exists j. repeat split; [lia|done|done|].
        intros j' u Hj Hu. apply (Hbefore (S j') u); [lia|done].
Qed.

Lemma first_app_window_None scope clientList k :
  first_app_window scope clientList k = None
  ↔ Forall (λ u, is_app_window scope u = false) clientList.
Proof.
  revert k. induction clientList as [|c l IH]; intros k; cbn [first_app_window].
  - split; [constructor|done].
  - destruct (is_app_window scope c) eqn:E.
    + split; [done|]. intros H. inversion H. congruence.
    + rewrite IH. split; [by constructor|]. intros H. by inversion H.
Qed.

(** X9. A click that is not on the dismiss action focuses the first
    window, in the order of [clientList], whose url is "/" or contains the
    scope; it focuses no other window, and the dismiss action focuses
    none. *)
Theorem click_focuses_first_app_window
    (action scope : string) (clientList : list string) (has_openWindow : bool)
    (i : nat) (url : string) :
  In (Focus i url) (notificationclick action scope clientList has_openWindow)
  ↔ action ≠ "close"
    ∧ clientList !! i = Some url
    ∧ is_app_window scope url = true
    ∧ ∀ j u, (j < i)%nat → clientList !! j = Some u → is_app_window scope u = false.
Proof.
  unfold notificationclick.
  destruct (String.eqb_spec action "close") as [->|Hne].
  { split; [intros [H|[]]; discriminate H|]. by intros [H _]. }
  destruct (first_app_window scope clientList 0) as [[i0 url0]|] eqn:E.
  - apply first_app_window_spec in E as (j & -> & Hl & Hm & Hb). cbn [Nat.add].
    split.
    + intros [H|[[= <- <-]|[]]]; [discriminate H|]. done.
    + intros (_ & Hl' & Hm' & Hb'). right. left.
      destruct (Nat.lt_trichotomy i j) as [Hlt|[->|Hgt]].
      * rewrite (Hb i url Hlt Hl') in Hm'. done.
      * congruence.
      * rewrite (Hb' j url0 Hgt Hl) in Hm. done.
  - apply first_app_window_None in E. split.
    + destruct has_openWindow; intros [H|H]; try discriminate H;
        try destruct H as [H|[]]; try discriminate H; done.
    + intros (_ & Hl & Hm & _).
      rewrite Forall_forall in E.
      rewrite (E url) in Hm; [done|]. by eapply list_elem_of_lookup_2.
Qed.

(** X10. A click closes the notification and then does at most one thing
    more: it focuses a window or opens one, never both.  A window is
    opened, at "/", exactly when the action is not the dismiss action, no
    window of the app is among the clients, and [openWindow] is there. *)
Theorem click_opens_window_only_without_app_window
    (action scope : string) (clientList : list string) (has_openWindow : bool) :
  (∃ rest, notificationclick action scope clientList has_openWindow
           = CloseNotification :: rest
           ∧ (length rest <= 1)%nat)
  ∧ ∀ u, In (OpenWindow u) (notificationclick action scope clientList has_openWindow)
         ↔ u = "/"
           ∧ action ≠ "close"
           ∧ has_openWindow = true
           ∧ Forall (λ c, is_app_window scope c = false) clientList.
Proof.
  unfold notificationclick.
  destruct (String.eqb_spec action "close") as [->|Hne].
  { split; [eexists; split; [done|cbn; lia]|].
    intros u. split; [intros [H|[]]; discriminate H|]. by intros (_ & H & _). }
  destruct (first_app_window scope clientList 0) as [[i0 url0]|] eqn:E.
  - split; [eexists; split; [done|cbn; lia]|].
    intros u. split; [intros [H|[H|[]]]; discriminate H|].
    intros (_ & _ & _ & HF).
    apply (first_app_window_None scope clientList 0) in HF. congruence.
  - apply first_app_window_None in E.
    destruct has_openWindow.
    + split; [eexists; split; [done|cbn; lia]|].
      intros u. split.
      * intros [H|[[= <-]|[]]]; [discriminate H|]. done.
      * intros (-> & _). right. by left.
    + split; [eexists; split; [done|cbn; lia]|].
      intros u. split; [intros [H|[]]; discriminate H|]. by intros (_ & _ & H & _).
Qed.

End ClickFacts.

(** * The cache of the app shell *)

Module CachingFacts.

Import JsString Caching.

Lemma caches_match_app_empty url name (cs : CacheStorage) :
  caches_match url (cs ++ [(name, ∅)]) = caches_match url cs.
Proof.
  induction cs as [|[n c] cs IH]; cbn; [by rewrite lookup_empty|].
  by destruct (c !! url).
Qed.

Lemma caches_match_open url name (cs : CacheStorage) :
  caches_match url (caches_open name cs) = caches_match url cs.
Proof.
  unfold caches_open. destruct (caches_has name cs); [done|].
  apply caches_match_app_empty.
Qed.

Lemma caches_match_put_ne url url' name r (cs : CacheStorage) :
  url' ≠ url →
  caches_match url' (cache_put name url r cs) = caches_match url' cs.
Proof.
  intros Hne. induction cs as [|[n c] cs IH]; [done|].
  change (cache_put name url r ((n, c) :: cs))
    with ((if String.eqb n name then (n, <[url := r]> c) else (n, c))
          :: cache_put name url r cs).
  destruct (String.eqb n name); cbn [caches_match];
    rewrite ?lookup_insert_ne by done; by rewrite IH.
Qed.

(** Storage in which every cache has the current name. *)
Lemma current_after_activate (cs : CacheStorage) :
  Forall (λ nc, fst nc = CACHE_NAME) (fst (onactivate cs)).
Proof.
  cbn. apply Forall_forall. intros nc [_ H]%list_elem_of_In%filter_In.
  by apply String.eqb_eq.
Qed.

Lemma current_open (cs : CacheStorage) :
  Forall (λ nc, fst nc = CACHE_NAME) cs →
  Forall (λ nc, fst nc = CACHE_NAME) (caches_open CACHE_NAME cs)
  ∧ caches_open CACHE_NAME cs ≠ [].
Proof.
  intros H. unfold caches_open. destruct cs as [|[n c] cs].
  - cbn. split; [by repeat constructor|done].
  - inversion H as [|? ? Hn _]; subst. cbn in Hn. subst n.
    replace (caches_has CACHE_NAME ((CACHE_NAME, c) :: cs)) with true
      by (unfold caches_has; cbn [existsb fst]; by rewrite String.eqb_refl).
    by split.
Qed.

Lemma current_put url r (cs : CacheStorage) :
  Forall (λ nc, fst nc = CACHE_NAME) cs → cs ≠ [] →
  Forall (λ nc, fst nc = CACHE_NAME) (cache_put CACHE_NAME url r cs)
  ∧ cache_put CACHE_NAME url r cs ≠ [].
Proof.
  intros H Hne. split; [|by destruct cs].
  unfold cache_put. apply Forall_fmap. eapply Forall_impl; [exact H|].
  intros [n c] Hn. cbn in *. by destruct (String.eqb n CACHE_NAME).
Qed.

Lemma caches_match_put_eq url r (cs : CacheStorage) :
  Forall (λ nc, fst nc = CACHE_NAME) cs → cs ≠ [] →
  caches_match url (cache_put CACHE_NAME url r cs) = Some r.
Proof.
  intros H Hne. destruct cs as [|[n c] cs]; [done|].
  inversion H as [|? ? Hn _]; subst. cbn in Hn. subst n.
  change (cache_put CACHE_NAME url r ((CACHE_NAME, c) :: cs))
    with ((if String.eqb CACHE_NAME CACHE_NAME
           then (CACHE_NAME, <[url := r]> c) else (CACHE_NAME, c))
          :: cache_put CACHE_NAME url r cs).
  rewrite String.eqb_refl. cbn [caches_match]. by rewrite lookup_insert_eq.
Qed.

(** X11. Handling a fetch changes what the caches answer for a url only
    if the url is the one requested, the request is a GET that is neither
    an extension url nor a dynamic path, the network answered with status
    200 and a type other than 'error', and the put succeeded.  So POST
    and API requests, failures and error pages never alter what is
    cached. *)
Theorem fetch_changes_cache_only_for_good_get
    (req : Request) (network : option Response) (put_ok : bool)
    (cs : CacheStorage) (url' : string) :
  caches_match url' (caches_after (onfetch req network put_ok cs))
  ≠ caches_match url' cs →
  url' = url req
  ∧ method req = "GET"
  ∧ String.prefix "chrome-extension://" (url req) = false
  ∧ is_dynamic (url req) = false
  ∧ put_ok = true
  ∧ ∃ r, network = Some r ∧ status r = 200 ∧ type r ≠ TypeError.
Proof.
  unfold onfetch.
  destruct (String.eqb_spec (method req) "GET") as [Hm|Hm]; cbn [negb]; [|done].
  destruct (String.prefix "chrome-extension://" (url req)) eqn:Hp; [done|].
  destruct (is_dynamic (url req)) eqn:Hd; [done|].
  destruct network as [r|]; [|by destruct (caches_match (url req) cs)].
  destruct (worth_caching r) eqn:Hw; [|done].
  destruct put_ok; cbn [caches_after];
    [|by rewrite caches_match_open].
  intros Hneq.
  destruct (decide (url' = url req)) as [->|Hne].
  - repeat split; try done. exists r. split; [done|].
    unfold worth_caching in Hw. apply andb_true_iff in Hw as [Hs Ht].
    split; [by apply Z.eqb_eq|]. intros Heq. by rewrite Heq in Ht.
  - rewrite caches_match_put_ne, caches_match_open in Hneq by done. done.
Qed.

Lemma fetch_changes_cache_only_for_good_get_witness :
  let req := {| method := "GET"; url := "https://wexly.app/" |} in
  let r := {| status := 200; type := TypeBasic; body := "shell" |} in
  "https://wexly.app/"%string = url req ∧ method req = "GET"%string.
Proof.
  intros req r.
  destruct (fetch_changes_cache_only_for_good_get req (Some r) true [] "https://wexly.app/")
    as (H1 & H2 & _).
  - vm_compute. discriminate.
  - by split.
Defined.

(** What the handler answers depends on the caches only through what
    they hold for the url of the request. *)
Lemma served_onfetch
    (req : Request) (network : option Response) (put_ok : bool) (cs : CacheStorage) :
  served (onfetch req network put_ok cs)
  = if negb (String.eqb (method req) "GET")
       || String.prefix "chrome-extension://" (url req)
    then NotIntercepted
    else match network with
         | Some r => Answer r
         | None =>
             if is_dynamic (url req) then NetworkError
             else Answer (default offline_response (caches_match (url req) cs))
         end.
Proof.
  unfold onfetch.
  destruct (negb (String.eqb (method req) "GET")); [done|].
  destruct (String.prefix "chrome-extension://" (url req)); [done|]. cbn [orb].
  destruct (is_dynamic (url req)); [done|].
  destruct network as [r|].
  - by destruct (worth_caching r), put_ok.
  - by destruct (caches_match (url req) cs).
Qed.

(** X12. Network first.  A request that is not a GET, or is for an
    extension url, is not intercepted.  Every other request is answered
    with the network's response whenever the network answers, whatever the
    caches hold and whether or not the response can be stored.  When the
    fetch fails, the failure is passed on for the API and data paths, and
    every other url is answered with the cached response, or with the 503
    offline response if the caches hold none. *)
Theorem network_answer_wins
    (req : Request) (network : option Response) (put_ok : bool) (cs : CacheStorage) :
  served (onfetch req network put_ok cs)
  = (if negb (String.eqb (method req) "GET")
        || String.prefix "chrome-extension://" (url req)
     then NotIntercepted
     else match network with
          | Some r => Answer r
          | None =>
              if includes "/api/" (url req) || includes "/_next/data/" (url req)
              then NetworkError
              else match caches_match (url req) cs with
                   | Some cached => Answer cached
                   | None => Answer {| status := 503; type := TypeDefault;
                                       body := "Offline - Content not cached" |}
                   end
          end).
Proof.
  rewrite served_onfetch. unfold is_dynamic.
  destruct (negb _ || _); [done|]. destruct network; [done|].
  destruct (_ || _); [done|]. by destruct (caches_match (url req) cs).
Qed.

(** X13. Offline replay.  Once the worker is activated, a GET that the
    network answers with a response worth caching is answered with that
    response; when the same url is requested again while the network is
    down, it is answered with that response again if the put into the
    cache succeeded, and as if the first request had not been made, from
    what the caches held before or with the offline response, if the put
    failed. *)
Theorem cached_response_is_replayed_offline
    (cs : CacheStorage) (req : Request) (r : Response) (put_ok1 put_ok2 : bool) :
  method req = "GET" →
  String.prefix "chrome-extension://" (url req) = false →
  is_dynamic (url req) = false →
  worth_caching r = true →
  let activated := fst (onactivate cs) in
  let online := onfetch req (Some r) put_ok1 activated in
  let offline := onfetch req None put_ok2 (caches_after online) in
  served online = Answer r
  ∧ served offline
    = (if put_ok1 then Answer r
       else served (onfetch req None put_ok2 activated))
  ∧ (put_ok1 = false →
     served offline
     = Answer (default offline_response (caches_match (url req) activated))).
Proof.
  intros Hm Hp Hd Hw activated online offline.
  destruct (current_open _ (current_after_activate cs)) as [Hcur Hne].
  fold activated in Hcur, Hne.
  assert (Hg : negb (String.eqb (method req) "GET")
               || String.prefix "chrome-extension://" (url req) = false)
    by (rewrite Hm, Hp; done).
  assert (Ha : caches_after online
               = if put_ok1
                 then cache_put CACHE_NAME (url req) r (caches_open CACHE_NAME activated)
                 else caches_open CACHE_NAME activated).
  { subst online. unfold onfetch. rewrite Hm, Hp, Hd, Hw. cbn [negb].
    replace (String.eqb "GET" "GET") with true by done. cbn [negb].
    by destruct put_ok1. }
  assert (Hoff : served offline
                 = if put_ok1 then Answer r
                   else Answer (default offline_response
                                  (caches_match (url req) activated))).
  { subst offline. rewrite served_onfetch, Hg, Hd, Ha.
    destruct put_ok1.
    - by rewrite caches_match_put_eq.
    - by rewrite caches_match_open. }
  split; [subst online; by rewrite served_onfetch, Hg|].
  split.
  - rewrite Hoff. destruct put_ok1; [done|]. by rewrite served_onfetch, Hg, Hd.
  - intros ->. exact Hoff.
Qed.

Lemma cached_response_is_replayed_offline_witness :
  let req := {| method := "GET"; url := "https://wexly.app/plan" |} in
  let r := {| status := 200; type := TypeBasic; body := "plan" |} in
  let old := [("wexly-v0"%string,
               {["https://wexly.app/plan"%string :=
                   {| status := 200; type := TypeBasic; body := "stale" |}]})] in
  served (onfetch req None false
            (caches_after (onfetch req (Some r) true (fst (onactivate old)))))
  = Answer r
  ∧ served (onfetch req None false
              (caches_after (onfetch req (Some r) false (fst (onactivate old)))))
    = Answer offline_response.
Proof.
  intros req r old. split.
  - refine (proj1 (proj2 (cached_response_is_replayed_offline old req r true false
                            _ _ _ _))); vm_compute; reflexivity.
  - refine (proj2 (proj2 (cached_response_is_replayed_offline old req r false false
                            _ _ _ _)) eq_refl); vm_compute; reflexivity.
Defined.

(** *** Install *)

Lemma filter_cache_put url r (cs : CacheStorage) :
  List.filter (λ nc, String.eqb (fst nc) CACHE_NAME) (cache_put CACHE_NAME url r cs)
  = cache_put CACHE_NAME url r
      (List.filter (λ nc, String.eqb (fst nc) CACHE_NAME) cs).
Proof.
  induction cs as [|[n c] cs IH]; [done|].
  change (cache_put CACHE_NAME url r ((n, c) :: cs))
    with ((if String.eqb n CACHE_NAME then (n, <[url := r]> c) else (n, c))
          :: cache_put CACHE_NAME url r cs).
  destruct (String.eqb n CACHE_NAME) eqn:E; cbn [List.filter fst]; rewrite E, IH.
  - change (cache_put CACHE_NAME url r ((n, c) :: ?l))
      with ((if String.eqb n CACHE_NAME then (n, <[url := r]> c) else (n, c))
            :: cache_put CACHE_NAME url r l).
    by rewrite E.
  - done.
Qed.

Lemma filter_puts fetch urls (cs : CacheStorage) :
  List.filter (λ nc, String.eqb (fst nc) CACHE_NAME)
    (fold_left (put_fetched CACHE_NAME fetch) urls cs)
  = fold_left (put_fetched CACHE_NAME fetch) urls
      (List.filter (λ nc, String.eqb (fst nc) CACHE_NAME) cs).
Proof.
  revert cs. induction urls as [|u urls IH]; intros cs; cbn [fold_left]; [done|].
  rewrite IH. f_equal. unfold put_fetched.
  destruct (fetch u); [apply filter_cache_put|done].
Qed.

Lemma puts_hold fetch urls (cs : CacheStorage) u r :
  Forall (λ nc, fst nc = CACHE_NAME) cs → cs ≠ [] →
  fetch u = Some r →
  In u urls ∨ caches_match u cs = Some r →
  caches_match u (fold_left (put_fetched CACHE_NAME fetch) urls cs) = Some r.
Proof.
  intros Hcur Hne Hf. revert cs Hcur Hne.
  induction urls as [|u0 urls IH]; intros cs Hcur Hne Hin; cbn [fold_left].
  { by destruct Hin as [[]|]. }
  unfold put_fetched at 2. destruct (fetch u0) as [r0|] eqn:E0.
  - destruct (current_put u0 r0 cs Hcur Hne) as [Hcur' Hne'].
    apply IH; [done|done|].
    destruct (decide (u = u0)) as [->|Hneq].
    + right. rewrite caches_match_put_eq by done. congruence.
    + destruct Hin as [[->|Hin]|Hm]; [done|by left|].
      right. by rewrite caches_match_put_ne.
  - apply IH; [done|done|].
    destruct Hin as [[->|Hin]|Hm]; [congruence|by left|by right].
Qed.

(** X14. After an install that succeeded and the activation, each path of
    the app shell was fetched with an ok response, and a GET of it while
    the network is down is answered with that response. *)
Theorem installed_shell_is_served_offline
    (origin : string) (fetch : string → option Response)
    (cs cs1 : CacheStorage) (path : string) (put_ok : bool) :
  oninstall origin fetch cs = (true, cs1) →
  In path urlsToCache →
  String.prefix "chrome-extension://" (origin ++ path) = false →
  is_dynamic (origin ++ path) = false →
  ∃ r, fetch (origin ++ path)%string = Some r
       ∧ ok r = true
       ∧ served (onfetch {| method := "GET"; url := (origin ++ path)%string |}
                   None put_ok (fst (onactivate cs1)))
         = Answer r.
Proof.
  intros Hi Hin Hp Hd. unfold oninstall, addAll in Hi.
  remember (map (λ p : string, (origin ++ p)%string) urlsToCache) as urls eqn:Hurls.
  destruct (forallb _ urls) eqn:Hall; [|discriminate Hi].
  injection Hi as <-.
  assert (Hu : In (origin ++ path)%string urls)
    by (rewrite Hurls; apply in_map_iff; eauto).
  rewrite forallb_forall in Hall. specialize (Hall _ Hu).
  destruct (fetch (origin ++ path)%string) as [r|] eqn:Hf; [|discriminate Hall].
  exists r. split; [done|]. split; [done|].
  unfold onfetch. cbn [method url]. rewrite Hp, Hd.
  replace (String.eqb "GET" "GET") with true by done. cbn [negb].
  cbn [onactivate fst].
  rewrite filter_puts.
  assert (Hcur : Forall (λ nc, fst nc = CACHE_NAME)
                   (List.filter (λ nc, String.eqb (fst nc) CACHE_NAME)
                      (caches_open CACHE_NAME cs))).
  { apply Forall_forall. intros nc [_ H]%list_elem_of_In%filter_In.
    by apply String.eqb_eq. }
  assert (Hne : List.filter (λ nc, String.eqb (fst nc) CACHE_NAME)
                  (caches_open CACHE_NAME cs) ≠ []).
  { unfold caches_open. destruct (caches_has CACHE_NAME cs) eqn:Hh.
    - unfold caches_has in Hh. apply existsb_exists in Hh as (nc & Hnc & Heq).
      intros Hnil.
      assert (Hx : In nc (List.filter (λ nc, String.eqb (fst nc) CACHE_NAME) cs))
        by (apply filter_In; by split).
      by rewrite Hnil in Hx.
    - rewrite List.filter_app. cbn. by destruct (List.filter _ cs). }
  rewrite (puts_hold fetch urls _ _ r Hcur Hne Hf) by by left.
  done.
Qed.

Lemma installed_shell_is_served_offline_witness :
  let page := {| status := 200; type := TypeBasic; body := "shell" |} in
  let cs1 := snd (oninstall "https://wexly.app" (λ _, Some page) []) in
  ∃ r, served (onfetch {| method := "GET"; url := "https://wexly.app/manifest.json" |}
                 None true (fst (onactivate cs1)))
       = Answer r.
Proof.
  intros page cs1.
  destruct (installed_shell_is_served_offline "https://wexly.app" (λ _, Some page)
              [] cs1 "/manifest.json" true) as (r & _ & _ & H).
  - vm_compute. reflexivity.
  - cbn. auto.
  - vm_compute. reflexivity.
  - vm_compute. reflexivity.
  - by exists r.
Defined.




End CachingFacts.

(** * More on [parseTimeToDate] *)

Module ParserMore.

Import JsString JsDate TimeParser DateFacts ParserFacts.
Local Open Scope string_scope.
Local Open Scope Z_scope.

Lemma append_empty_r (x : string) : x ++ "" = x.
Proof. induction x as [|c x IH]; rewrite ?append_cons, ?append_nil; by rewrite ?IH. Qed.

Lemma every_clock_reads_24_true : every_clock_reads_24 = true.
Proof. vm_compute. reflexivity. Qed.

Lemma clock_reads_24 padded h mm :
  0 <= h <= 23 →
  match mm with Some m => 0 <= m <= 59 | None => True end →
  clock_reads padded h mm = true.
Proof.
  intros Hh Hm. pose proof every_clock_reads_24_true as H.
  unfold every_clock_reads_24 in H. rewrite forallb_forall in H.
  assert (Hin : In h (seqZ 0 24))
    by (apply list_elem_of_In, elem_of_seqZ; lia).
  apply H in Hin. rewrite forallb_forall in Hin.
  assert (Hp : In padded [true; false]) by (destruct padded; cbn; auto).
  apply Hin in Hp. apply andb_true_iff in Hp as [H1 H2].
  destruct mm as [m|]; [|done].
  rewrite forallb_forall in H2. apply H2.
  apply list_elem_of_In, elem_of_seqZ. lia.
Qed.

(** A string of digits and colons has no marker, in either file. *)
Lemma plain_has_no_meridiem v text :
  all_plain text = true → has_meridiem v text = false.
Proof.
  intros Hp%all_plain_inert.
  assert (Hl : ∀ a, (a = "a" ∨ a = "p" ∨ a = "A" ∨ a = "P")%char →
                    ∀ c, inert c = true → a ≠ c).
  { intros a Ha c Hc. destruct (inert_not_letter c Hc) as (? & ? & ? & ?).
    destruct Ha as [-> | [-> | [-> | ->] ] ]; done. }
  assert (Hi : ∀ a n, (a = "a" ∨ a = "p" ∨ a = "A" ∨ a = "P")%char →
                      includes (String a n) text = false).
  { intros a n Ha. rewrite <- (append_empty_r text).
    rewrite includes_inert by auto. done. }
  destruct v; unfold has_meridiem.
  - rewrite !Hi by auto. done.
  - pose proof (toLowerCase_inert text "" Hp) as Hlow.
    cbn [toLowerCase] in Hlow. rewrite !append_empty_r in Hlow.
    rewrite Hlow, !Hi by auto. done.
Qed.

Lemma trim_plain text :
  all_plain text = true → trim text = text.
Proof.
  intros Hp. unfold trim. destruct text as [|c text]; [done|].
  pose proof Hp as Hp'. cbn [all_plain] in Hp. apply andb_true_iff in Hp as [Hc _].
  rewrite trimStart_plain by done.
  pose proof (trimEnd_plain (String c text) 0 Hp') as H.
  cbn [spaces] in H. by rewrite append_empty_r in H.
Qed.

(** The clock of the date that a valid input gives. *)
Lemma valid_date_clock v offset clock timeStr hours minutes :
  validate (fields v (trim timeStr)) = Some (hours, minutes) →
  let tz := fixed_zone offset in
  let d := date (parseTimeToDate v tz clock timeStr) in
  getHours tz d = hours ∧ getMinutes tz d = minutes
  ∧ getSeconds tz d = 0 ∧ getMilliseconds tz d = 0.
Proof.
  intros Hv tz d. subst d. rewrite (parse_valid _ _ _ _ _ _ Hv). cbv zeta.
  apply validate_Some in Hv as (_ & Hh & Hm).
  pose proof (setHours_fields offset _ _ (read_scheduledTime clock) Hh Hm) as Hs.
  cbv zeta in Hs. fold tz in Hs.
  destruct (_ <=? _); cbn [date]; [|done].
  unfold tz. rewrite setDateNextDay_fixed.
  by destruct (fields_next_day_fixed offset
                 (setHours (fixed_zone offset) hours minutes 0 0
                    (read_scheduledTime clock))) as (-> & -> & -> & ->).
Qed.

(** X16. The 24-hour format.  An input [H] or [H:MM] with the hour from 0
    to 23, with or without a leading zero, and the minutes from 00 to 59
    passes validation in both files as that hour and minute (0 minutes
    when absent), and the date returned shows that time with zero seconds
    and milliseconds. *)
Theorem reads_24_hour_clock
    (v : Variant) (offset : Z) (clock : Clock) (padded : bool) (h : Z) (mm : option Z) :
  0 <= h <= 23 →
  match mm with Some m => 0 <= m <= 59 | None => True end →
  let tz := fixed_zone offset in
  let d := date (parseTimeToDate v tz clock (clock_text padded h mm)) in
  validate (fields v (trim (clock_text padded h mm))) = Some (h, default 0 mm)
  ∧ getHours tz d = h ∧ getMinutes tz d = default 0 mm
  ∧ getSeconds tz d = 0 ∧ getMilliseconds tz d = 0.
Proof.
  intros Hh Hm tz d.
  pose proof (clock_reads_24 padded h mm Hh Hm) as Hc. unfold clock_reads in Hc.
  apply andb_true_iff in Hc as [[Hplain _]%andb_true_iff Hparts].
  assert (Hk : 0 <= default 0 mm <= 59) by (destruct mm; cbn; lia).
  assert (Hv : validate (fields v (trim (clock_text padded h mm)))
               = Some (h, default 0 mm)).
  { rewrite trim_plain by done. unfold fields.
    rewrite plain_has_no_meridiem by done.
    destruct (hours_part _) as [a|]; [|done].
    destruct (minutes_part _) as [b|]; [|done].
    apply andb_true_iff in Hparts as [->%Z.eqb_eq ->%Z.eqb_eq].
    unfold validate.
    destruct (Z.ltb_spec h 0); [lia|]. destruct (Z.ltb_spec 23 h); [lia|].
    destruct (Z.ltb_spec (default 0 mm) 0); [lia|].
    destruct (Z.ltb_spec 59 (default 0 mm)); [lia|]. done. }
  split; [exact Hv|]. by apply valid_date_clock.
Qed.

Lemma reads_24_hour_clock_witness :
  validate (fields Verbose (trim (clock_text true 7 (Some 5)))) = Some (7, 5).
Proof.
  refine (proj1 (reads_24_hour_clock Verbose 0 (at_instant 0) true 7 (Some 5) _ _)); lia.
Defined.

(** X17. The next occurrence.  For an input that passes validation as
    [h:m], on a host with a constant offset, the date returned is the
    first instant after [now] at which the local clock reads [h:m:00.000]:
    it is later than [now], at most 24 hours later, its time within the
    local day is [h:m], and no instant between [now] and it has that time
    within the day. *)
Theorem parsed_date_is_next_occurrence
    (v : Variant) (offset now : Z) (timeStr : string) (h m : Z) :
  validate (fields v (trim timeStr)) = Some (h, m) →
  let d := date (parseTimeToDate v (fixed_zone offset) (at_instant now) timeStr) in
  now < d <= now + msPerDay
  ∧ TimeWithinDay (d + offset) = h * msPerHour + m * msPerMinute
  ∧ ∀ t', now < t' →
          TimeWithinDay (t' + offset) = h * msPerHour + m * msPerMinute →
          d <= t'.
Proof.
  intros Hv d. subst d. rewrite (parse_valid _ _ _ _ _ _ Hv). cbv zeta.
  apply validate_Some in Hv as (_ & Hh & Hm).
  cbn [read_scheduledTime read_now at_instant].
  rewrite setHours_fixed.
  unfold TimeWithinDay, msPerDay, msPerHour, msPerMinute.
  pose proof (Z.div_mod (now + offset) 86400000 ltac:(lia)) as Hdm.
  pose proof (Z.mod_pos_bound (now + offset) 86400000 ltac:(lia)) as Hb.
  set (D := (now + offset) / 86400000) in *.
  set (hm := h * 3600000 + m * 60000).
  assert (Hhm : 0 <= hm < 86400000) by (unfold hm; lia).
  assert (Hmin : ∀ k t', now < t' → (t' + offset) mod 86400000 = hm →
                         (k = D ∧ hm <= (now + offset) mod 86400000
                          ∨ k = D - 1 ∧ (now + offset) mod 86400000 < hm) →
                         (k + 1) * 86400000 + hm - offset <= t').
  { intros k t' Hlt Hmod Hk.
    pose proof (Z.div_mod (t' + offset) 86400000 ltac:(lia)) as Hdm'.
    rewrite Hmod in Hdm'.
    assert (k < (t' + offset) / 86400000) by lia. lia. }
  destruct (Z.leb_spec (D * 86400000 + h * 3600000 + m * 60000 - offset) now)
    as [Hle|Hgt]; cbn [date].
  - rewrite setDateNextDay_fixed. unfold msPerDay.
    split; [fold hm in Hle |- *; lia|]. split.
    + replace (D * 86400000 + h * 3600000 + m * 60000 - offset + 86400000 + offset)
        with (hm + (D + 1) * 86400000) by (unfold hm; lia).
      rewrite Z.mod_add by lia. apply Z.mod_small. lia.
    + intros t' Hlt Hmod.
      specialize (Hmin D t' Hlt Hmod). fold hm in Hle. unfold hm in *. lia.
  - split; [fold hm in Hgt |- *; lia|]. split.
    + replace (D * 86400000 + h * 3600000 + m * 60000 - offset + offset)
        with (hm + D * 86400000) by (unfold hm; lia).
      rewrite Z.mod_add by lia. apply Z.mod_small. lia.
    + intros t' Hlt Hmod.
      specialize (Hmin (D - 1) t' Hlt Hmod). fold hm in Hgt. unfold hm in *. lia.
Qed.

Lemma parsed_date_is_next_occurrence_witness :
  1000 < date (parseTimeToDate Quiet (fixed_zone 0) (at_instant 1000) "7:30 pm")
       <= 1000 + msPerDay.
Proof.
  refine (proj1 (parsed_date_is_next_occurrence Quiet 0 1000 "7:30 pm" 19 30 _)).
  vm_compute. reflexivity.
Defined.

(** *** White space around the input *)

Lemma trimStart_ws a x : all_ws a = true → trimStart (a ++ x) = trimStart x.
Proof.
  induction a as [|c a IH]; rewrite ?append_cons, ?append_nil; [done|].
  cbn [all_ws trimStart]. intros [-> Ha]%andb_true_iff. by apply IH.
Qed.

Lemma trimEnd_ws b : all_ws b = true → trimEnd b = "".
Proof.
  induction b as [|c b IH]; [done|].
  cbn [all_ws trimEnd]. intros [-> Hb]%andb_true_iff. by rewrite IH.
Qed.

Lemma trimEnd_app_ws x b : all_ws b = true → trimEnd (x ++ b) = trimEnd x.
Proof.
  intros Hb. induction x as [|c x IH]; rewrite ?append_cons, ?append_nil.
  - by apply trimEnd_ws.
  - cbn [trimEnd]. by rewrite IH.
Qed.

Lemma trim_ws a s b :
  all_ws a = true → all_ws b = true → trim (a ++ s ++ b) = trim s.
Proof.
  intros Ha Hb. unfold trim. rewrite trimStart_ws by done.
  induction s as [|c s IH]; rewrite ?append_cons, ?append_nil.
  - pose proof (trimStart_ws b "" Hb) as H. rewrite append_empty_r in H.
    rewrite H. done.
  - cbn [trimStart]. destruct (is_ws c); [exact IH|].
    rewrite <- append_cons. by apply trimEnd_app_ws.
Qed.

(** X18. White space before and after the input (blanks, tabs, line
    breaks, no-break spaces) makes no difference to the date returned or
    to what is logged. *)
Theorem surrounding_white_space_is_ignored
    (v : Variant) (tz : TimeZone) (clock : Clock) (a timeStr b : string) :
  all_ws a = true → all_ws b = true →
  parseTimeToDate v tz clock (a ++ timeStr ++ b) = parseTimeToDate v tz clock timeStr.
Proof.
  intros Ha Hb. unfold parseTimeToDate. by rewrite trim_ws.
Qed.

Lemma surrounding_white_space_is_ignored_witness :
  parseTimeToDate Verbose (fixed_zone 0) (at_instant 0)
    (String " " (String "009" "") ++ "7:30 pm" ++ String "010" "")
  = parseTimeToDate Verbose (fixed_zone 0) (at_instant 0) "7:30 pm".
Proof.
  refine (surrounding_white_space_is_ignored Verbose (fixed_zone 0) (at_instant 0)
            _ "7:30 pm" _ _ _); vm_compute; reflexivity.
Defined.

(** Whatever the input, on a host with a constant offset the date is
    after [now] and at most a day after it. *)
Lemma parse_within_day v offset now timeStr :
  now < date (parseTimeToDate v (fixed_zone offset) (at_instant now) timeStr)
      <= now + msPerDay.
Proof.
  split;
    [apply (parse_future_fixed_zone v offset (at_instant now) timeStr); cbn; lia|].
  destruct (validate (fields v (trim timeStr))) as [[h m]|] eqn:E.
  - rewrite (parse_valid _ _ _ _ _ _ E). cbv zeta.
    apply validate_Some in E as (_ & Hh & Hm).
    cbn [read_scheduledTime read_now at_instant]. rewrite setHours_fixed.
    pose proof (Z.div_mod (now + offset) msPerDay ltac:(done)) as Hdm.
    pose proof (Z.mod_pos_bound (now + offset) msPerDay ltac:(done)) as Hb.
    destruct (Z.leb_spec ((now + offset) / msPerDay * msPerDay + h * msPerHour
                          + m * msPerMinute - offset) now); cbn [date].
    + rewrite setDateNextDay_fixed. lia.
    + unfold msPerDay, msPerHour, msPerMinute in *. lia.
  - rewrite (parse_invalid _ _ _ _ E). cbn [date].
    unfold UTC, LocalTime, msPerMinute, msPerDay. cbn. lia.
Qed.

End ParserMore.

(** * More on the manager *)

Module ManagerMore.

Import TimeParser Manager ManagerFacts.

Lemma initialize_posts v p m :
  Forall (λ msg, msg = ServiceWorker.SKIP_WAITING) (posted (initialize v p m)).
Proof.
  unfold posted, initialize.
  destruct (isSupported m), (isInitialized m), v, (register_result p) as [[[] [] ?]|],
    (activation p), (ready p); cbn; repeat constructor.
Qed.

Lemma initialize_prompts v p m : prompts (initialize v p m) = 0%nat.
Proof.
  unfold prompts, initialize.
  by destruct (isSupported m), (isInitialized m), v, (register_result p) as [[[] [] ?]|],
    (activation p), (ready p).
Qed.

(** X19. [initialize] marks the manager as initialized exactly when it
    returns true, and registers the worker only on a supported manager
    that is not yet initialized.  After a call that returned true, every
    further call returns true at once, without registering again and
    without any other effect, and the manager reports ready. *)
Theorem initialize_settles (v : Variant) (p : Platform) (m : Fields) :
  let r := initialize v p m in
  (isInitialized m = false →
   (isInitialized (fields r) = true ↔ outcome r = Fulfilled true))
  ∧ (In Register (effects r) → isSupported m = true ∧ isInitialized m = false)
  ∧ (outcome r = Fulfilled true →
     (∀ p', initialize v p' (fields r)
            = {| outcome := Fulfilled true; fields := fields r; effects := [] |})
     ∧ (isSupported m = true → isInitialized m = false → isReady (fields r) = true)).
Proof.
  destruct m as [reg sup ini]. unfold initialize. cbn [isSupported isInitialized].
  destruct sup, ini, v; cbn; try (intuition (try done; try discriminate); fail).
  - destruct (register_result p) as [[[] [] ac]|], (activation p), (ready p);
      cbn; intuition (try done; try discriminate).
  - destruct (register_result p) as [[[] [] ac]|], (activation p), (ready p);
      cbn; intuition (try done; try discriminate).
Qed.

Lemma initialize_settles_witness :
  let p := {| permission := PermissionDefault;
              register_result := Some {| installing := false; waiting := true;
                                         active := false |};
              activation := false;
              ready := Some {| installing := false; waiting := false; active := true |};
              prompt_result := None |} in
  let m := {| registration := None; isSupported := true; isInitialized := false |} in
  isReady (fields (initialize Quiet p m)) = true.
Proof.
  intros p m.
  destruct (initialize_settles Quiet p m) as (_ & _ & H).
  destruct (H eq_refl) as [_ H']. exact (H' eq_refl eq_refl).
Defined.

(** X20. A manager built where service workers or notifications are
    missing fails every operation at once and asks nothing of the
    platform: it does not register, post or prompt.  [requestPermission]
    returns false after the alert that the browser is not supported,
    [initialize] and [scheduleNotification] return false and write to the
    console at most. *)
Theorem unsupported_manager_fails_fast
    (v : Variant) (p : Platform) (now : Z) (id t b : string) (st : option Z)
    (m : Fields) :
  isSupported m = false → isInitialized m = false → registration m = None →
  initialize v p m
  = {| outcome := Fulfilled false; fields := m;
       effects := talk v (Console LevelError NotSupported) |}
  ∧ requestPermission v p m
    = {| outcome := Fulfilled false; fields := m; effects := [Alert AlertUnsupported] |}
  ∧ scheduleNotification v p now id t b st m
    = {| outcome := Fulfilled false; fields := m;
         effects := talk v (Console LevelError NotSupported)
                    ++ talk v (Console LevelError WorkerNotRegistered) |}
  ∧ cancelNotification v id m = [].
Proof.
  destruct m as [reg sup ini]. cbn. intros -> -> ->.
  unfold initialize, requestPermission, scheduleNotification, cancelNotification.
  cbn. by destruct v.
Qed.

Lemma unsupported_manager_fails_fast_witness :
  let p := {| permission := PermissionGranted; register_result := None;
              activation := false; ready := None; prompt_result := None |} in
  let m := {| registration := None; isSupported := false; isInitialized := false |} in
  requestPermission Quiet p m
  = {| outcome := Fulfilled false; fields := m; effects := [Alert AlertUnsupported] |}.
Proof.
  intros p m.
  exact (proj1 (proj2 (unsupported_manager_fails_fast Quiet p 0 "x" "t" "b" None m
                         eq_refl eq_refl eq_refl))).
Defined.

(** The shape of a schedule call: what initialization posted, then the
    schedule message if and only if the call returns true. *)
Lemma schedule_call_shape v p now id t b st m :
  let call := scheduleNotification v p now id t b st m in
  ∃ init_posted,
    Forall (λ msg, msg = ServiceWorker.SKIP_WAITING) init_posted
    ∧ ((outcome call = Fulfilled true
        ∧ posted call = init_posted ++ [ServiceWorker.SCHEDULE_NOTIFICATION id t b st]
        ∧ permission p = PermissionGranted
        ∧ is_Some st
        ∧ ∃ r, registration (fields call) = Some r ∧ is_Some (pick_worker r))
       ∨ (outcome call ≠ Fulfilled true ∧ posted call = init_posted)).
Proof.
  cbv zeta. unfold scheduleNotification.
  set (i := if negb (isInitialized m) then initialize v p m
            else {| outcome := Fulfilled true; fields := m; effects := [] |}).
  assert (Hi : Forall (λ msg, msg = ServiceWorker.SKIP_WAITING) (posted i)).
  { subst i. destruct (negb (isInitialized m)); [apply initialize_posts|constructor]. }
  exists (posted i). split; [exact Hi|].
  assert (Happ : ∀ (o : Outcome bool) f e,
             posted {| outcome := o; fields := f; effects := effects i ++ e |}
             = posted i ++ omap (λ e, match e with
                                      | PostMessage _ m => Some m | _ => None end) e).
  { intros. unfold posted. cbn. by rewrite omap_app. }
  destruct (outcome i) as [_b|]; [|by right].
  destruct (registration (fields i)) as [r|] eqn:Hr.
  2:{ right. split; [done|]. rewrite Happ. destruct v; cbn; by rewrite app_nil_r. }
  destruct (permission p) eqn:Hp.
  1,3: right; split; [done|]; rewrite Happ; destruct v; cbn; by rewrite app_nil_r.
  destruct (pick_worker r) as [sw|] eqn:Hsw.
  2:{ right. split; [done|]. rewrite Happ. destruct v; cbn; by rewrite app_nil_r. }
  destruct st as [ms|].
  2:{ right. split; [done|]. rewrite Happ. cbn. by rewrite app_nil_r. }
  left. split; [done|]. split; [rewrite Happ; by destruct v|].
  split; [done|]. split; [eauto|]. cbn. exists r. split; [done|]. rewrite Hsw. eauto.
Qed.

(** X21. [scheduleNotification] returns true exactly when it has posted
    the schedule message, with the id, title, body and time it was given.
    That takes a registration with a worker, the permission granted and a
    valid date; in every other case it posts no schedule message.  The
    only other message a call can post is SKIP_WAITING, from an
    initialization it started. *)
Theorem schedule_reports_what_it_posted
    (v : Variant) (p : Platform) (now : Z) (id t b : string) (st : option Z)
    (m : Fields) :
  let call := scheduleNotification v p now id t b st m in
  (outcome call = Fulfilled true
   ↔ In (ServiceWorker.SCHEDULE_NOTIFICATION id t b st) (posted call))
  ∧ (outcome call = Fulfilled true →
     permission p = PermissionGranted ∧ is_Some st
     ∧ ∃ r, registration (fields call) = Some r ∧ is_Some (pick_worker r))
  ∧ Forall (λ msg, msg = ServiceWorker.SKIP_WAITING
                   ∨ msg = ServiceWorker.SCHEDULE_NOTIFICATION id t b st)
      (posted call).
Proof.
  intros call.
  destruct (schedule_call_shape v p now id t b st m)
    as (ip & Hip & [(Ho & Hposted & Hp & Hst & Hr)|(Ho & Hposted)]);
    fold call in Ho, Hposted; rewrite Hposted.
  - split; [split; [intros _; apply in_app_iff; right; by left|done]|].
    split; [done|]. apply Forall_app. split.
    + eapply Forall_impl; [exact Hip|]. intros msg ->. by left.
    + constructor; [by right|constructor].
  - split; [split; [done|]|split; [done|]].
    + intros Hin%list_elem_of_In. rewrite Forall_forall in Hip.
      by specialize (Hip _ Hin).
    + eapply Forall_impl; [exact Hip|]. intros msg ->. by left.
Qed.

(** The part of [requestPermission] after initialization, case by case. *)
Lemma requestPermission_ready_cases v p m :
  let res := fst (requestPermission_ready v p m) in
  let e := snd (requestPermission_ready v p m) in
  let granted := permission p = PermissionGranted
                 ∨ (permission p = PermissionDefault
                    ∧ prompt_result p = Some PermissionGranted) in
  (length (omap (λ e, match e with Prompt => Some tt | _ => None end) e) <= 1)%nat
  ∧ (In Prompt e ↔ permission p = PermissionDefault)
  ∧ (res = true ↔ granted)
  ∧ (res = true → omap (λ e, match e with Alert a => Some a | _ => None end) e = [])
  ∧ (res = false →
     (∃ a, omap (λ e, match e with Alert a => Some a | _ => None end) e = [a])
     ∨ (omap (λ e, match e with Alert a => Some a | _ => None end) e = []
        ∧ v = Quiet ∧ permission p = PermissionDefault ∧ prompt_result p = None)).
Proof.
  unfold requestPermission_ready, sendTestNotification.
  destruct v, (permission p), (prompt_result p) as [[]|], (registration m);
    cbn; (split; [lia|]);
    intuition (try done; try discriminate; eauto;
               repeat match goal with
                      | H : _ ∨ _ |- _ => destruct H
                      | H : _ ∧ _ |- _ => destruct H
                      end; try done; try discriminate).
Qed.

(** X22. [requestPermission] prompts at most once, and only while the
    permission is undecided.  It returns true only if the permission is
    granted, before the call or by the prompt.  On a supported and
    initialized manager it prompts exactly when the permission is
    undecided and returns true exactly when the permission is granted. *)
Theorem permission_prompt_only_when_undecided
    (v : Variant) (p : Platform) (m : Fields) :
  let r := requestPermission v p m in
  let granted := permission p = PermissionGranted
                 ∨ (permission p = PermissionDefault
                    ∧ prompt_result p = Some PermissionGranted) in
  (prompts r <= 1)%nat
  ∧ (In Prompt (effects r) → permission p = PermissionDefault)
  ∧ (outcome r = Fulfilled true → granted)
  ∧ (isSupported m = true → isInitialized m = true →
     (In Prompt (effects r) ↔ permission p = PermissionDefault)
     ∧ (outcome r = Fulfilled true ↔ granted)).
Proof.
  cbv zeta. unfold requestPermission.
  destruct (isSupported m) eqn:Hs; cbn [negb].
  2:{ cbn. repeat split; try done; try lia. intros [H|[]]; discriminate H. }
  destruct (isInitialized m) eqn:Hi; cbn [negb].
  - destruct (requestPermission_ready_cases v p m) as (Hc & Hp & Hr & _).
    cbv zeta in Hc, Hp, Hr.
    destruct (requestPermission_ready v p m) as [res e]. cbn in *.
    split; [exact Hc|]. split; [apply Hp|].
    assert (Hres : Fulfilled res = Fulfilled true ↔ res = true)
      by (split; [by intros [= ->]|by intros ->]).
    split; [intros H; by apply Hr, Hres|].
    intros _ _. split; [exact Hp|]. by rewrite Hres.
  - pose proof (initialize_not_prompting v p m) as Hn.
    pose proof (initialize_prompts v p m) as Hz. unfold prompts in Hz.
    destruct (outcome (initialize v p m)) as [[]|].
    + destruct (requestPermission_ready_cases v p (fields (initialize v p m)))
        as (Hc & Hp & Hr & _).
      cbv zeta in Hc, Hp, Hr.
      destruct (requestPermission_ready v p (fields (initialize v p m))) as [res e].
      cbn in *. unfold prompts. cbn [effects].
      rewrite omap_app, length_app, Hz.
      split; [exact Hc|]. split.
      * rewrite in_app_iff. intros [H|H]; [done|by apply Hp].
      * split; [|done]. intros [= ->]. by apply Hr.
    + unfold prompts. cbn [effects outcome]. rewrite omap_app, length_app, Hz. cbn.
      split; [lia|]. split; [|split; done].
      rewrite in_app_iff. intros [H|[H|[]]]; [done|discriminate H].
    + unfold prompts. cbn [effects outcome]. rewrite Hz.
      split; [lia|]. split; [done|]. split; done.
Qed.

Lemma permission_prompt_only_when_undecided_witness :
  let p := {| permission := PermissionDefault; register_result := None;
              activation := false; ready := None;
              prompt_result := Some PermissionGranted |} in
  let m := {| registration := None; isSupported := true; isInitialized := true |} in
  outcome (requestPermission Quiet p m) = Fulfilled true.
Proof.
  intros p m.
  destruct (permission_prompt_only_when_undecided Quiet p m) as (_ & _ & _ & H).
  destruct (H eq_refl eq_refl) as [_ [_ H']].
  apply H'. right. by split.
Defined.

(** X23. A [requestPermission] that returns true shows no alert.  One
    that returns false shows exactly one alert, with one exception: in
    the file without logging, when the prompt itself throws, the failure
    is written to the console only and the user sees no alert. *)
Theorem failed_permission_request_alerts_once
    (v : Variant) (p : Platform) (m : Fields) :
  let r := requestPermission v p m in
  (outcome r = Fulfilled true → alerts r = [])
  ∧ (outcome r = Fulfilled false →
     (∃ a, alerts r = [a])
     ∨ (alerts r = [] ∧ v = Quiet ∧ permission p = PermissionDefault
        ∧ prompt_result p = None)).
Proof.
  cbv zeta. unfold requestPermission.
  destruct (isSupported m) eqn:Hs; cbn [negb].
  2:{ cbn. split; [done|]. intros _. left. by eexists. }
  destruct (isInitialized m) eqn:Hi; cbn [negb].
  - destruct (requestPermission_ready_cases v p m) as (_ & _ & _ & Ht & Hf).
    cbv zeta in Ht, Hf.
    destruct (requestPermission_ready v p m) as [res e]. cbn in *.
    unfold alerts. cbn [effects].
    split; [intros [= ->]; by apply Ht|]. intros [= ->]. by apply Hf.
  - pose proof (initialize_no_alert v p m) as Hz. unfold alerts in Hz.
    destruct (outcome (initialize v p m)) as [[]|].
    + destruct (requestPermission_ready_cases v p (fields (initialize v p m)))
        as (_ & _ & _ & Ht & Hf).
      cbv zeta in Ht, Hf.
      destruct (requestPermission_ready v p (fields (initialize v p m))) as [res e].
      cbn in *. unfold alerts. cbn [effects]. rewrite omap_app, Hz. cbn [app].
      split; [intros [= ->]; by apply Ht|]. intros [= ->]. by apply Hf.
    + unfold alerts. cbn [effects outcome]. rewrite omap_app, Hz. cbn.
      split; [done|]. intros _. left. by eexists.
    + cbn [outcome]. split; done.
Qed.

Lemma failed_permission_request_alerts_once_witness :
  let p := {| permission := PermissionDefault; register_result := None;
              activation := false; ready := None; prompt_result := None |} in
  let m := {| registration := None; isSupported := true; isInitialized := true |} in
  (∃ a, alerts (requestPermission Quiet p m) = [a])
  ∨ (alerts (requestPermission Quiet p m) = [] ∧ Quiet = Quiet
     ∧ permission p = PermissionDefault ∧ prompt_result p = None).
Proof.
  intros p m.
  exact (proj2 (failed_permission_request_alerts_once Quiet p m) eq_refl).
Defined.

End ManagerMore.

(** * A reminder from the page to the worker *)

Module ReminderFacts.

Import SchedulerFacts.








(** X25. A reminder made with [scheduleBackgroundNotification], on a host
    with a constant offset, never meets the capacity guard of the worker.
    The time in the schedule message it posts is after the page's [now]
    and at most a day after it; a worker whose clock is not behind the
    page's either stores the entry and arms its timeout, or, when the
    time has been reached meanwhile, shows the alert at once. *)
Theorem background_reminder_is_never_dropped
    (v : TimeParser.Variant) (offset now fnow : Z) (p : Manager.Platform)
    (id name time : string) (m : Manager.Fields)
    (id' t b : string) (st : option Z) (now' : Z) (s : ServiceWorker.State) :
  In (ServiceWorker.SCHEDULE_NOTIFICATION id' t b st)
     (Manager.posted
        (Manager.scheduleBackgroundNotification v (JsDate.fixed_zone offset)
           (TimeParser.at_instant now) p fnow id name time m)) →
  now <= now' →
  ∃ ms, st = Some ms ∧ id' = id
        ∧ now < ms <= now + JsDate.msPerDay
        ∧ let s' := ServiceWorker.scheduleNotification id t b (Some ms) now' s in
          (now' < ms
           ∧ ServiceWorker.scheduledNotifications s' !! id
             = Some {| ServiceWorker.timeoutId := ServiceWorker.nextTimeoutId s;
                       ServiceWorker.title := t; ServiceWorker.body := b;
                       ServiceWorker.scheduledTime := Some ms |}
           ∧ ServiceWorker.timers s' !! ServiceWorker.nextTimeoutId s
             = Some {| ServiceWorker.cb_title := t; ServiceWorker.cb_body := b;
                       ServiceWorker.cb_id := id;
                       ServiceWorker.timer_delay := ms - now' |})
          ∨ (ms <= now'
             ∧ ServiceWorker.shown s'
               = ServiceWorker.shown s
                 ++ [(t, {| ServiceWorker.opt_body := b;
                            ServiceWorker.opt_tag :=
                              js_or (JsString id)
                                (JsString ServiceWorker.DEFAULT_TAG) |})]).
Proof.
  intros Hin Hle.
  set (d := TimeParser.date
              (TimeParser.parseTimeToDate v (JsDate.fixed_zone offset)
                 (TimeParser.at_instant now) time)) in *.
  pose proof (ParserMore.parse_within_day v offset now time) as Hd. fold d in Hd.
  assert (Hmsg : ∃ T B, ServiceWorker.SCHEDULE_NOTIFICATION id' t b st
                        = ServiceWorker.SCHEDULE_NOTIFICATION id T B (Some d)).
  { unfold Manager.scheduleBackgroundNotification in Hin. fold d in Hin.
    assert (Hcall : ∀ T B,
               In (ServiceWorker.SCHEDULE_NOTIFICATION id' t b st)
                  (Manager.posted
                     (Manager.scheduleNotification v p fnow id T B (Some d) m)) →
               ServiceWorker.SCHEDULE_NOTIFICATION id' t b st
               = ServiceWorker.SCHEDULE_NOTIFICATION id T B (Some d)).
    { intros T B H.
      destruct (ManagerMore.schedule_call_shape v p fnow id T B (Some d) m)
        as (ip & Hip & [(_ & Hposted & _)|(_ & Hposted)]);
        rewrite Hposted in H; rewrite Forall_forall in Hip.
      - apply in_app_iff in H as [H%list_elem_of_In|[H|[]]]; [|done].
        by specialize (Hip _ H).
      - apply list_elem_of_In in H. by specialize (Hip _ H). }
    destruct v; eauto. }
  destruct Hmsg as (T & B & [= -> -> -> ->]).
  exists d. split; [done|]. split; [done|]. split; [exact Hd|].
  cbv zeta. destruct (Z.le_gt_cases d now') as [Hpast|Hfuture].
  - right. split; [done|].
    destruct (schedule_past id T B (Some d) now' s) as (_ & _ & _ & ->); [|done].
    cbn. lia.
  - left. split; [lia|].
    destruct (schedule_arms id T B (Some d) now' s) as (-> & -> & _).
    + cbn. lia.
    + cbn. unfold ServiceWorker.MAX_TIMEOUT, JsDate.msPerDay in *. lia.
    + rewrite !lookup_insert_eq. done.
Qed.

Lemma background_reminder_is_never_dropped_witness :
  let p := {| Manager.permission := Manager.PermissionGranted;
              Manager.register_result := None; Manager.activation := false;
              Manager.ready := None; Manager.prompt_result := None |} in
  let m := {| Manager.registration :=
                Some {| Manager.installing := false; Manager.waiting := false;
                        Manager.active := true |};
              Manager.isSupported := true; Manager.isInitialized := true |} in
  ∃ ms, Some 70200000 = Some ms ∧ "x" = "x"
        ∧ 1000 < ms <= 1000 + JsDate.msPerDay.
Proof.
  intros p m.
  destruct (background_reminder_is_never_dropped TimeParser.Quiet 0 1000 1000 p
              "x" "Walk dog" "7:30 pm" m "x" "Walk dog" "7:30 pm" (Some 70200000)
              1000 ServiceWorker.initial) as (ms & H1 & H2 & H3 & _).
  - vm_compute. by left.
  - lia.
  - exists ms. exact (conj H1 (conj H2 H3)).
Defined.

End ReminderFacts.
